(** * KCC issuer service: a shallow embedding of [src/index.js]

    The service is a thin Express application over the Web5 SDK.  This
    development embeds its routines as Rocq functions:

    - [JsDate]: the ECMAScript time-value arithmetic that
      [getExpirationDate] relies on ([new Date()], [getDate], [setDate],
      [toISOString]);
    - [JsonStringify]: object graphs on a heap, the [JSON.stringify]
      traversal with a replacer function, and the
      [removeCircularReferences] replacer;
    - [Service]: the local store, the external collaborators (SDK,
      authorization gateway, clock) as an oracle record, the routines
      [initialize], [issueAndSignCredential], [getRecord],
      [getPermission] and the three routes, in a state-and-exception
      monad.

    Thrown JavaScript values are modelled by the [Throw] completion; an
    [async] function that throws is a rejected promise. *)

From Stdlib Require Import ZArith Lia String Ascii List Bool.
From stdpp Require Import base tactics option list gmap strings pretty.

Set Warnings "-register-all,-clear-no-such-hyp".

Local Open Scope string_scope.
Local Open Scope Z_scope.

(** ** JavaScript values that cross the service's interfaces *)

(** Tree-shaped JavaScript data: what request bodies, SDK results,
    thrown errors and response bodies are made of.  [JErr] is an
    instance of an [Error] class, [JHandle] an opaque SDK object (a DWN
    record handle, a protocol handle, a fetch response), [JFun] a
    function or module object bound at module level. *)
Inductive jsval : Type :=
  | JUndefined
  | JNull
  | JBool (b : bool)
  | JNum (z : Z)
  | JStr (s : string)
  | JArr (elems : list jsval)
  | JObj (props : list (string * jsval))
  | JErr (name message : string)
  | JHandle (h : nat)
  | JFun (name : string).

(** Completion of an evaluation: a value, or a thrown JavaScript value. *)
Inductive completion (A : Type) : Type :=
  | Return (a : A)
  | Throw (e : jsval).
Arguments Return {A} a.
Arguments Throw {A} e.

Definition RangeError (msg : string) : jsval := JErr "RangeError" msg.
Definition TypeError (msg : string) : jsval := JErr "TypeError" msg.
Definition ReferenceError (msg : string) : jsval := JErr "ReferenceError" msg.

(** ** ECMAScript dates (ECMA-262, "Date Objects") *)

Module JsDate.

(** A time value is a number of milliseconds since the epoch, UTC; an
    invalid date has the time value NaN, here [None]. *)
Definition msPerSecond : Z := 1000.
Definition msPerMinute : Z := 60000.
Definition msPerHour : Z := 3600000.
Definition msPerDay : Z := 86400000.
Definition maxTime : Z := 8640000000000000.

Definition Day (t : Z) : Z := t / msPerDay.
Definition TimeWithinDay (t : Z) : Z := t mod msPerDay.

Definition DaysInYear (y : Z) : Z :=
  if negb (y mod 4 =? 0) then 365
  else if negb (y mod 100 =? 0) then 366
  else if negb (y mod 400 =? 0) then 365
  else 366.

Definition DayFromYear (y : Z) : Z :=
  365 * (y - 1970) + (y - 1969) / 4 - (y - 1901) / 100 + (y - 1601) / 400.

Definition TimeFromYear (y : Z) : Z := msPerDay * DayFromYear y.

(** [YearFromTime t] is the largest [y] with [TimeFromYear y <= t]: a
    first estimate from the mean length of a Gregorian year (146097
    days in 400 years), corrected by at most one year. *)
Definition YearFromTime (t : Z) : Z :=
  let d := Day t in
  let y0 := 1970 + (400 * d) / 146097 in
  if d <? DayFromYear y0 then y0 - 1
  else if DayFromYear (y0 + 1) <=? d then y0 + 1
  else y0.

Definition InLeapYear (t : Z) : Z :=
  if DaysInYear (YearFromTime t) =? 366 then 1 else 0.

Definition DayWithinYear (t : Z) : Z := Day t - DayFromYear (YearFromTime t).

(** Number of days of the year before the first day of month [m]
    (0 = January), [leap] being 1 in a leap year and 0 otherwise. *)
Definition DaysBeforeMonth (m leap : Z) : Z :=
  match m with
  | 0 => 0
  | 1 => 31
  | 2 => 59 + leap
  | 3 => 90 + leap
  | 4 => 120 + leap
  | 5 => 151 + leap
  | 6 => 181 + leap
  | 7 => 212 + leap
  | 8 => 243 + leap
  | 9 => 273 + leap
  | 10 => 304 + leap
  | _ => 334 + leap
  end.

Definition MonthFromTime (t : Z) : Z :=
  let d := DayWithinYear t in
  let leap := InLeapYear t in
  if d <? 31 then 0
  else if d <? 59 + leap then 1
  else if d <? 90 + leap then 2
  else if d <? 120 + leap then 3
  else if d <? 151 + leap then 4
  else if d <? 181 + leap then 5
  else if d <? 212 + leap then 6
  else if d <? 243 + leap then 7
  else if d <? 273 + leap then 8
  else if d <? 304 + leap then 9
  else if d <? 334 + leap then 10
  else 11.

Definition DateFromTime (t : Z) : Z :=
  DayWithinYear t - DaysBeforeMonth (MonthFromTime t) (InLeapYear t) + 1.

Definition HourFromTime (t : Z) : Z := (t / msPerHour) mod 24.
Definition MinFromTime (t : Z) : Z := (t / msPerMinute) mod 60.
Definition SecFromTime (t : Z) : Z := (t / msPerSecond) mod 60.
Definition msFromTime (t : Z) : Z := t mod msPerSecond.

(** [MakeDay year month date]: the day number of the first day of the
    month [month] of [year] (months beyond 0..11 carry into the year),
    plus [date - 1]. *)
Definition MakeDay (year month date : Z) : Z :=
  let ym := year + month / 12 in
  let mn := month mod 12 in
  let leap := if DaysInYear ym =? 366 then 1 else 0 in
  DayFromYear ym + DaysBeforeMonth mn leap + date - 1.

Definition MakeDate (day time : Z) : Z := day * msPerDay + time.

Definition TimeClip (time : Z) : option Z :=
  if maxTime <? Z.abs time then None else Some time.

Section LocalZone.

(** The host's time zone: [LocalTZA t isUTC] is the offset of local
    time from UTC in milliseconds, at the UTC time [t] when [isUTC]
    and at the local time [t] otherwise. *)
Variable LocalTZA : Z -> bool -> Z.

Definition LocalTime (t : Z) : Z := t + LocalTZA t true.
Definition UTC (t : Z) : Z := t - LocalTZA t false.

(** [Date.prototype.getDate]: NaN for an invalid date. *)
Definition getDate (tv : option Z) : option Z :=
  match tv with
  | None => None
  | Some t => Some (DateFromTime (LocalTime t))
  end.

(** [Date.prototype.setDate]: the new time value of the date object.
    A NaN argument gives an invalid date. *)
Definition setDate (tv : option Z) (dt : option Z) : option Z :=
  match tv, dt with
  | Some t0, Some dt =>
      let t := LocalTime t0 in
      let newDate :=
        MakeDate (MakeDay (YearFromTime t) (MonthFromTime t) dt)
                 (TimeWithinDay t) in
      TimeClip (UTC newDate)
  | _, _ => None
  end.

End LocalZone.

(** Decimal digits, zero padded to [w] places. *)
Fixpoint digits (w : nat) (n : Z) : string :=
  match w with
  | O => ""
  | S w' =>
      digits w' (n / 10) +:+
      String (ascii_of_nat (48 + Z.to_nat (n mod 10))) ""
  end.

(** The year of an ISO timestamp: four digits for 0..9999, otherwise a
    sign and six digits. *)
Definition isoYear (y : Z) : string :=
  if (0 <=? y) && (y <=? 9999) then digits 4 y
  else if y <? 0 then "-" +:+ digits 6 (- y)
  else "+" +:+ digits 6 y.

Definition isoFormat (t : Z) : string :=
  isoYear (YearFromTime t) +:+ "-" +:+ digits 2 (MonthFromTime t + 1) +:+
  "-" +:+ digits 2 (DateFromTime t) +:+ "T" +:+ digits 2 (HourFromTime t) +:+
  ":" +:+ digits 2 (MinFromTime t) +:+ ":" +:+ digits 2 (SecFromTime t) +:+
  "." +:+ digits 3 (msFromTime t) +:+ "Z".

(** [Date.prototype.toISOString]: the UTC fields of the time value; an
    invalid date throws a RangeError. *)
Definition toISOString (tv : option Z) : completion string :=
  match tv with
  | None => Throw (RangeError "Invalid time value")
  | Some t => Return (isoFormat t)
  end.

(** [getExpirationDate(days = 30)], lines 33-37.  [now] is the time
    value [new Date()] reads from the clock; [days] is [None] when the
    argument is omitted. *)
Definition getExpirationDate (LocalTZA : Z -> bool -> Z) (now : Z)
    (days : option Z) : completion string :=
  let days := default 30 days in
  let date := Some now in
  let date :=
    setDate LocalTZA date
      (match getDate LocalTZA date with
       | Some d => Some (d + days)
       | None => None
       end) in
  toISOString date.

(** Two hosts for concrete runs: one on UTC, one that is on UTC-5
    before 2025-03-09T07:00:00Z and on UTC-4 from then on (the start of
    daylight saving time in New York in 2025). *)
Definition utcZone : Z -> bool -> Z := fun _ _ => 0.

Definition dstZone : Z -> bool -> Z := fun t isUTC =>
  if isUTC then (if t <? 1741503600000 then -18000000 else -14400000)
  else (if t <? 1741503600000 - 18000000 + 3600000 then -18000000
        else -14400000).

End JsDate.


(** ** [JSON.stringify] over object graphs (ECMA-262, "JSON Object") *)

Module JsonStringify.

(** Objects have identity: a value is a primitive or a reference to an
    object on the heap.  An object is a plain object (its enumerable own
    properties, in enumeration order) or an array. *)
Definition loc := nat.

Inductive value : Type :=
  | VUndefined
  | VNull
  | VBool (b : bool)
  | VNum (z : Z)
  | VStr (s : string)
  | VRef (l : loc).

Inductive object : Type :=
  | Obj (props : list (string * value))
  | Arr (elems : list value).

Abbreviation heap := (gmap loc object).

(** The structure of a JSON text, which is also the value that
    [JSON.parse] rebuilds from it. *)
Inductive json : Type :=
  | JsNull
  | JsBool (b : bool)
  | JsNum (z : Z)
  | JsStr (s : string)
  | JsArray (elems : list json)
  | JsObject (members : list (string * json)).

(** A replacer function is a closure: private state and a call that
    maps a key and a value to the value to serialize. *)
Record Replacer : Type := {
  rstate : Type;
  rinit : rstate;
  rcall : rstate -> string -> value -> rstate * value
}.

(** [removeCircularReferences()], lines 19-30: the closure's state is
    the WeakSet [seen], empty when the replacer is created. *)
Definition removeCircularReferences : Replacer := {|
  rstate := gset loc;
  rinit := ∅;
  rcall := fun seen key value =>
    match value with
    | VRef l =>
        if decide (l ∈ seen) then (seen, VUndefined)
        else ({[l]} ∪ seen, value)
    | _ => (seen, value)
    end
|}.

(** The replacer that changes nothing, as when none is given. *)
Definition noReplacer : Replacer := {|
  rstate := unit;
  rinit := tt;
  rcall := fun s key value => (s, value)
|}.

Definition cyclicError : jsval :=
  TypeError "Converting circular structure to JSON".

Section Serialize.

Variable h : heap.
Variable R : Replacer.

(** The result of serializing one property: [None] when the model
    has no answer (recursion budget exhausted, or a reference that
    is not on the heap), else a completion carrying the replacer's
    state and the JSON of the property, [None] for undefined. *)
Definition ser_result (A : Type) : Type :=
  option (completion (rstate R * A)).

(** The members of an object: a property whose serialization is
    undefined is left out. *)
Fixpoint serialize_members
    (ser : rstate R -> string -> value -> ser_result (option json))
    (props : list (string * value)) (rs : rstate R)
    : ser_result (list (string * json)) :=
  match props with
  | [] => Some (Return (rs, []))
  | (k, v) :: props' =>
      match ser rs k v with
      | None => None
      | Some (Throw e) => Some (Throw e)
      | Some (Return (rs1, o)) =>
          match serialize_members ser props' rs1 with
          | None => None
          | Some (Throw e) => Some (Throw e)
          | Some (Return (rs2, ms)) =>
              Some (Return (rs2,
                match o with
                | Some j => (k, j) :: ms
                | None => ms
                end))
          end
      end
  end.

(** The elements of an array, from index [i] on: an element whose
    serialization is undefined becomes null. *)
Fixpoint serialize_elements
    (ser : rstate R -> string -> value -> ser_result (option json))
    (i : nat) (elems : list value) (rs : rstate R)
    : ser_result (list json) :=
  match elems with
  | [] => Some (Return (rs, []))
  | v :: elems' =>
      match ser rs (pretty i) v with
      | None => None
      | Some (Throw e) => Some (Throw e)
      | Some (Return (rs1, o)) =>
          match serialize_elements ser (S i) elems' rs1 with
          | None => None
          | Some (Throw e) => Some (Throw e)
          | Some (Return (rs2, js)) =>
              Some (Return (rs2, default JsNull o :: js))
          end
      end
  end.

(** SerializeJSONObject and SerializeJSONArray: an object that is
    already on the stack of objects being serialized is a cycle, a
    TypeError.  [ser] is the serialization of the properties, [None]
    when the recursion budget is used up. *)
Definition SerializeJSONObject
    (ser : option (list loc -> rstate R -> string -> value ->
                   ser_result (option json)))
    (stack : list loc) (rs : rstate R) (l : loc)
    (props : list (string * value)) : ser_result (option json) :=
  if decide (l ∈ stack) then Some (Throw cyclicError)
  else
    match ser with
    | None => None
    | Some ser =>
        match serialize_members (ser (l :: stack)) props rs with
        | None => None
        | Some (Throw e) => Some (Throw e)
        | Some (Return (rs', ms)) =>
            Some (Return (rs', Some (JsObject ms)))
        end
    end.

Definition SerializeJSONArray
    (ser : option (list loc -> rstate R -> string -> value ->
                   ser_result (option json)))
    (stack : list loc) (rs : rstate R) (l : loc)
    (elems : list value) : ser_result (option json) :=
  if decide (l ∈ stack) then Some (Throw cyclicError)
  else
    match ser with
    | None => None
    | Some ser =>
        match serialize_elements (ser (l :: stack)) 0 elems rs with
        | None => None
        | Some (Throw e) => Some (Throw e)
        | Some (Return (rs', js)) =>
            Some (Return (rs', Some (JsArray js)))
        end
    end.

(** SerializeJSONProperty: the replacer is called on the value of
    the property first; what it returns is serialized. *)
Fixpoint SerializeJSONProperty (fuel : nat) (stack : list loc)
    (rs : rstate R) (key : string) (v : value)
    : ser_result (option json) :=
  let '(rs, v) := rcall R rs key v in
  match v with
  | VUndefined => Some (Return (rs, None))
  | VNull => Some (Return (rs, Some JsNull))
  | VBool b => Some (Return (rs, Some (JsBool b)))
  | VNum z => Some (Return (rs, Some (JsNum z)))
  | VStr s => Some (Return (rs, Some (JsStr s)))
  | VRef l =>
      let ser :=
        match fuel with
        | O => None
        | S fuel' => Some (SerializeJSONProperty fuel')
        end in
      match h !! l with
      | None => None
      | Some (Obj props) => SerializeJSONObject ser stack rs l props
      | Some (Arr elems) => SerializeJSONArray ser stack rs l elems
      end
  end.

(** [JSON.stringify(v, replacer)] up to rendering: the serialization
    of the property [""] of a wrapper object holding [v], on an
    empty stack.  The stack never holds an object twice, so a budget
    of one more than the number of objects is never exhausted. *)
Definition stringify_tree (v : value) : option (completion (option json)) :=
  match SerializeJSONProperty (S (size h)) [] (rinit R) "" v with
  | None => None
  | Some (Throw e) => Some (Throw e)
  | Some (Return (_, o)) => Some (Return o)
  end.

End Serialize.

(** Rendering of the JSON text (no indentation). *)
Definition dquote : string := String (ascii_of_nat 34) "".

Definition hexDigit (n : nat) : ascii :=
  ascii_of_nat (if (n <? 10)%nat then 48 + n else 87 + n).

Definition escapeChar (c : ascii) : string :=
  let n := nat_of_ascii c in
  if (n =? 8)%nat then "\b"
  else if (n =? 9)%nat then "\t"
  else if (n =? 10)%nat then "\n"
  else if (n =? 12)%nat then "\f"
  else if (n =? 13)%nat then "\r"
  else if (n =? 34)%nat then "\" +:+ dquote
  else if (n =? 92)%nat then "\\"
  else if (n <? 32)%nat then
    "\u00" +:+ String (hexDigit (n / 16)) (String (hexDigit (n mod 16)) "")
  else String c "".

Fixpoint escapeString (s : string) : string :=
  match s with
  | EmptyString => ""
  | String c s' => escapeChar c +:+ escapeString s'
  end.

Definition QuoteJSONString (s : string) : string :=
  dquote +:+ escapeString s +:+ dquote.

Fixpoint render (j : json) : string :=
  match j with
  | JsNull => "null"
  | JsBool true => "true"
  | JsBool false => "false"
  | JsNum z => pretty z
  | JsStr s => QuoteJSONString s
  | JsArray js =>
      "[" +:+
      (fix elements (js : list json) : string :=
         match js with
         | [] => ""
         | [j] => render j
         | j :: js' => render j +:+ "," +:+ elements js'
         end) js +:+ "]"
  | JsObject ms =>
      "{" +:+
      (fix members (ms : list (string * json)) : string :=
         match ms with
         | [] => ""
         | [(k, j)] => QuoteJSONString k +:+ ":" +:+ render j
         | (k, j) :: ms' =>
             QuoteJSONString k +:+ ":" +:+ render j +:+ "," +:+ members ms'
         end) ms +:+ "}"
  end.

(** [JSON.stringify(v, replacer)]: the text, or undefined. *)
Definition JSON_stringify (h : heap) (R : Replacer) (v : value)
    : option (completion (option string)) :=
  match stringify_tree h R v with
  | None => None
  | Some (Throw e) => Some (Throw e)
  | Some (Return o) => Some (Return (render <$> o))
  end.

(** Every reference held by an object of the heap is on the heap. *)
Definition value_closed (h : heap) (v : value) : Prop :=
  match v with
  | VRef l => is_Some (h !! l)
  | _ => True
  end.

Definition object_closed (h : heap) (o : object) : Prop :=
  match o with
  | Obj props => Forall (fun kv => value_closed h kv.2) props
  | Arr elems => Forall (value_closed h) elems
  end.

Definition heap_closed (h : heap) : Prop :=
  ∀ l o, h !! l = Some o → object_closed h o.

(** The walk that the serialization with [removeCircularReferences]
    performs, as a relation: depth first, in property order, [seen]
    being the objects met so far.  The first occurrence of an object is
    kept; a repeated reference is dropped, which leaves the key out of
    an object and puts null in an array. *)
Inductive Walk (h : heap) : gset loc → value → gset loc → option json → Prop :=
  | Walk_undefined seen : Walk h seen VUndefined seen None
  | Walk_null seen : Walk h seen VNull seen (Some JsNull)
  | Walk_bool seen b : Walk h seen (VBool b) seen (Some (JsBool b))
  | Walk_num seen z : Walk h seen (VNum z) seen (Some (JsNum z))
  | Walk_str seen s : Walk h seen (VStr s) seen (Some (JsStr s))
  | Walk_repeated seen l :
      l ∈ seen → Walk h seen (VRef l) seen None
  | Walk_object seen l props seen' ms :
      l ∉ seen → h !! l = Some (Obj props) →
      WalkProps h ({[l]} ∪ seen) props seen' ms →
      Walk h seen (VRef l) seen' (Some (JsObject ms))
  | Walk_array seen l elems seen' js :
      l ∉ seen → h !! l = Some (Arr elems) →
      WalkElems h ({[l]} ∪ seen) elems seen' js →
      Walk h seen (VRef l) seen' (Some (JsArray js))
with WalkProps (h : heap) :
    gset loc → list (string * value) → gset loc → list (string * json) → Prop :=
  | WalkProps_nil seen : WalkProps h seen [] seen []
  | WalkProps_kept seen k v seen1 j props seen2 ms :
      Walk h seen v seen1 (Some j) →
      WalkProps h seen1 props seen2 ms →
      WalkProps h seen ((k, v) :: props) seen2 ((k, j) :: ms)
  | WalkProps_dropped seen k v seen1 props seen2 ms :
      Walk h seen v seen1 None →
      WalkProps h seen1 props seen2 ms →
      WalkProps h seen ((k, v) :: props) seen2 ms
with WalkElems (h : heap) :
    gset loc → list value → gset loc → list json → Prop :=
  | WalkElems_nil seen : WalkElems h seen [] seen []
  | WalkElems_cons seen v seen1 o elems seen2 js :
      Walk h seen v seen1 o →
      WalkElems h seen1 elems seen2 js →
      WalkElems h seen (v :: elems) seen2 (default JsNull o :: js).

Scheme Walk_mut := Induction for Walk Sort Prop
  with WalkProps_mut := Induction for WalkProps Sort Prop
  with WalkElems_mut := Induction for WalkElems Sort Prop.
Combined Scheme Walk_mutind from Walk_mut, WalkProps_mut, WalkElems_mut.

(** What the induction on the recursion budget carries: with the stack
    inside [seen] and more budget than objects not yet seen, the
    serialization of a closed value with [removeCircularReferences]
    returns, and returns what the walk describes. *)
Definition Ser_ok (h : heap) (fuel : nat) (stack : list loc) : Prop :=
  forall (seen : gset loc) key v,
    value_closed h v ->
    (forall l, l ∈ stack -> l ∈ seen) ->
    (size (dom h ∖ seen) < fuel)%nat ->
    exists seen' o,
      SerializeJSONProperty h removeCircularReferences fuel stack seen key v =
        Some (Return (seen', o)) /\
      Walk h seen v seen' o /\ seen ⊆ seen'.

(** Sample graphs.  [cyclicGraph]: [{name: "a", self: <root>}].
    [sharedGraph]: [{first: c, second: c}] with [c = {n: 1}], no cycle.
    [arrayGraph]: [{items: [<root>, c, c]}] with [c = {n: 1}]. *)
Definition cyclicGraph : heap :=
  {[ 0%nat := Obj [("name", VStr "a"); ("self", VRef 0%nat)] ]}.

Definition sharedGraph : heap :=
  <[ 0%nat := Obj [("first", VRef 1%nat); ("second", VRef 1%nat)] ]>
  {[ 1%nat := Obj [("n", VNum 1)] ]}.

Definition arrayGraph : heap :=
  <[ 0%nat := Obj [("items", VRef 2%nat)] ]>
  (<[ 2%nat := Arr [VRef 0%nat; VRef 1%nat; VRef 1%nat] ]>
   {[ 1%nat := Obj [("n", VNum 1)] ]}).

(** *** Measures and shapes of graphs and texts *)

(** Equality of values is decidable. *)
#[global] Instance value_eq_dec : EqDecision value.
Proof. solve_decision. Defined.

(** The number of object and array nodes of a JSON text. *)
Fixpoint json_nodes (j : json) : nat :=
  match j with
  | JsArray js => S (sum_list (map json_nodes js))
  | JsObject ms => S (sum_list (map (fun m => json_nodes (snd m)) ms))
  | _ => O
  end.

Definition json_nodes_opt (o : option json) : nat :=
  match o with
  | Some j => json_nodes j
  | None => O
  end.

(** A replacer called on a sequence of properties, one after the
    other, as [JSON.stringify] does: the values it returns. *)
Fixpoint replay (R : Replacer) (rs : rstate R)
    (calls : list (string * value)) : list value :=
  match calls with
  | [] => []
  | (k, v) :: calls' =>
      let '(rs', v') := rcall R rs k v in
      v' :: replay R rs' calls'
  end.

(** What [removeCircularReferences] returns for the value [v] once
    the references in [seen] have gone through it. *)
Definition replaced (seen : gset loc) (v : value) : value :=
  match v with
  | VRef l => if decide (l ∈ seen) then VUndefined else v
  | _ => v
  end.

(** The references among the values of a sequence of calls. *)
Definition call_refs (calls : list (string * value)) : gset loc :=
  list_to_set (omap (fun kv => match kv.2 with VRef l => Some l | _ => None end)
                 calls).

(** The references that a value, an object and a whole graph hold,
    counted as often as they occur. *)
Definition value_refs (v : value) : list loc :=
  match v with
  | VRef l => [l]
  | _ => []
  end.

Definition object_refs (o : object) : list loc :=
  match o with
  | Obj props => props ≫= (fun kv => value_refs (snd kv))
  | Arr elems => elems ≫= value_refs
  end.

Definition heap_refs (h : heap) : list loc :=
  map_to_list h ≫= (fun lo => object_refs (snd lo)).

(** No object is referred to twice, neither by two properties or
    elements nor by one of them and the value itself: below [v] the
    graph is a tree. *)
Definition tree_shaped (h : heap) (v : value) : Prop :=
  NoDup (value_refs v ++ heap_refs h).

(** The graph without the objects in [seen]. *)
Definition unseen (h : heap) (seen : gset loc) : heap :=
  filter (fun lo => lo.1 ∉ seen) h.

(** What keeps the replacer idle: the references still to come are
    distinct and none of them is in [seen]. *)
Definition fresh (seen : gset loc) (refs : list loc) : Prop :=
  NoDup refs /\ forall l, l ∈ refs -> l ∉ seen.

(** A graph without repeated references:
    [{owner: {name: "a"}, keys: [{kty: "OKP"}, 7]}]. *)
Definition treeGraph : heap :=
  <[ 0%nat := Obj [("owner", VRef 1%nat); ("keys", VRef 2%nat)] ]>
  (<[ 1%nat := Obj [("name", VStr "a")] ]>
   (<[ 2%nat := Arr [VRef 3%nat; VNum 7] ]>
    {[ 3%nat := Obj [("kty", VStr "OKP")] ]})).

End JsonStringify.


(** ** The service: store, collaborators, routines and routes *)

Module Service.

Import JsonStringify.

(** The bearer identity that the SDK hands out: an object graph. *)
Record BearerDid : Type := {
  graph : heap;
  root : value
}.

(** What a run of a routine leaves behind, in program order.
    [Invoke fn] marks the entry into the routine [fn] of the service;
    [ResSend] and [ResJson] are the calls of [res.send] and [res.json],
    with the response's [statusCode] when the call is made (Express
    creates the response with 200, and no handler assigns it). *)
Inductive event : Type :=
  | Invoke (fn : string)
  | ConsoleLog (args : list jsval)
  | ConsoleLogGraph (g : BearerDid)
  | ConsoleError (args : list jsval)
  | ResSend (statusCode : Z) (body : jsval)
  | ResJson (statusCode : Z) (body : jsval).

(** The process state: the key-value pairs of [localStorage] and the
    events so far. *)
Record state : Type := {
  store : gmap string string;
  trace : list event
}.

(** The external collaborators, as an oracle: the clock and the time
    zone of the host, the environment, the Web5 SDK and the
    authorization gateway.  Each call resolves to a value or throws. *)
Record World : Type := {
  clock : Z;
  zone : Z -> bool -> Z;
  env_PORT : option string;
  (** [import('@web5/credentials')] *)
  import_credentials : completion unit;
  (** [Web5.connect(options)], resolving to the DID (the [web5] handle
      it also resolves to stands for the calls below) *)
  Web5_connect : option jsval -> completion string;
  (** which registration callback [Web5.connect] calls when it is
      given some: [onSuccess], [onFailure(error)], or none *)
  registration : option (completion unit);
  (** [web5.dwn.protocols.configure(request)], to [{ protocol }] *)
  protocols_configure : jsval -> completion jsval;
  (** [protocol.send(did)] *)
  protocol_send : jsval -> string -> completion jsval;
  (** [web5.agent.identity.get(request)], to [{ did }] or undefined *)
  identity_get : jsval -> completion (option BearerDid);
  (** [VerifiableCredential.create(options)] *)
  VerifiableCredential_create : jsval -> completion jsval;
  (** [vc.sign({ did })] *)
  vc_sign : jsval -> BearerDid -> completion jsval;
  (** [web5.dwn.records.create(request)], to [{ record }] *)
  records_create : jsval -> completion jsval;
  (** [record.send(target)], to [{ status }] *)
  record_send : jsval -> jsval -> completion jsval;
  (** [web5.dwn.records.query(request)], to [{ records }], an array *)
  records_query : jsval -> completion (list jsval);
  (** [fetch(url)] and [response.json()] *)
  fetch : string -> completion jsval;
  response_json : jsval -> completion jsval
}.

(** *** The monad of routines

    A routine maps the state to the new state and a completion; [None]
    is a run on which the model has no answer (see [ser_result]).  The
    store and the trace survive a throw. *)
Definition M (A : Type) : Type := state -> state * option (completion A).

Definition ret {A} (a : A) : M A := fun st => (st, Some (Return a)).

Definition bind {A B} (m : M A) (f : A -> M B) : M B := fun st =>
  match m st with
  | (st', Some (Return a)) => f a st'
  | (st', Some (Throw e)) => (st', Some (Throw e))
  | (st', None) => (st', None)
  end.

Declare Scope js_scope.
Delimit Scope js_scope with js.
Notation "x <- c1 ;; c2" := (bind c1 (fun x => c2))
  (at level 100, c1 at next level, right associativity) : js_scope.
Notation "c1 ;; c2" := (bind c1 (fun _ => c2))
  (at level 100, right associativity) : js_scope.
Local Open Scope js_scope.

Definition throw {A} (e : jsval) : M A := fun st => (st, Some (Throw e)).

(** [await] of a collaborator's promise, or a call that may throw. *)
Definition lift {A} (c : completion A) : M A := fun st => (st, Some c).

Definition lift_partial {A} (c : option (completion A)) : M A :=
  fun st => (st, c).

(** [try { body } catch (e) { handler }] *)
Definition try_catch {A} (body : M A) (handler : jsval -> M A) : M A :=
  fun st =>
    match body st with
    | (st', Some (Throw e)) => handler e st'
    | r => r
    end.

Definition emit (ev : event) : M unit := fun st =>
  ({| store := store st; trace := trace st ++ [ev] |}, Some (Return tt)).

(** Entry into a routine of the service. *)
Definition invoke {A} (fn : string) (body : M A) : M A :=
  emit (Invoke fn) ;; body.

Definition console_log (args : list jsval) : M unit := emit (ConsoleLog args).
Definition console_error (args : list jsval) : M unit :=
  emit (ConsoleError args).

(** [localStorage.getItem(key)]: the stored text, or null ([None]). *)
Definition getItem (key : string) : M (option string) := fun st =>
  (st, Some (Return (store st !! key))).

(** [localStorage.setItem(key, value)] *)
Definition setItem (key value : string) : M unit := fun st =>
  ({| store := <[key := value]> (store st); trace := trace st |},
   Some (Return tt)).

(** A [getItem] result as a value, and inside a template literal. *)
Definition item (i : option string) : jsval :=
  match i with
  | Some s => JStr s
  | None => JNull
  end.

Definition item_text (i : option string) : string := default "null" i.

(** [getItem(key) !== "true"] *)
Definition is_not_true (i : option string) : bool :=
  negb (bool_decide (i = Some "true")).

(** [res.send(body)] and [res.json(body)] *)
Definition res_send (body : jsval) : M unit := emit (ResSend 200 body).
Definition res_json (body : jsval) : M unit := emit (ResJson 200 body).

(** *** Expressions *)

Fixpoint assoc (k : string) (props : list (string * jsval)) : option jsval :=
  match props with
  | [] => None
  | (k', v) :: props' => if String.eqb k k' then Some v else assoc k props'
  end.

(** [v.k]: reading a property of undefined or null is a TypeError.  Of
    the property names that the service reads, only plain objects have
    one. *)
Definition get_prop (v : jsval) (k : string) : completion jsval :=
  match v with
  | JUndefined =>
      Throw (TypeError
        ("Cannot read properties of undefined (reading '" +:+ k +:+ "')"))
  | JNull =>
      Throw (TypeError
        ("Cannot read properties of null (reading '" +:+ k +:+ "')"))
  | JObj props => Return (default JUndefined (assoc k props))
  | _ => Return JUndefined
  end.

(** [v ?? d]: [d] when [v] is undefined or null. *)
Definition is_nullish (v : jsval) : bool :=
  match v with
  | JUndefined | JNull => true
  | _ => false
  end.

Definition nullish (v d : jsval) : jsval := if is_nullish v then d else v.

(** [records[records.length - 1]] on an array: undefined when empty. *)
Definition last_record (records : list jsval) : jsval :=
  default JUndefined (last records).

(** A method call [target.m(...)] whose outcome the oracle gives: on
    undefined or null it is a TypeError before the SDK is reached. *)
Definition method_call {A} (target : jsval) (m : string)
    (outcome : completion A) : completion A :=
  match target with
  | JUndefined =>
      Throw (TypeError
        ("Cannot read properties of undefined (reading '" +:+ m +:+ "')"))
  | JNull =>
      Throw (TypeError
        ("Cannot read properties of null (reading '" +:+ m +:+ "')"))
  | _ => outcome
  end.

(** [const { did } = await web5.agent.identity.get(...)] *)
Definition destructure_did (r : option BearerDid) : completion BearerDid :=
  match r with
  | Some d => Return d
  | None =>
      Throw (TypeError
        "Cannot destructure property 'did' of '(intermediate value)' as it is undefined.")
  end.

(** Resolution of an identifier against the bindings in scope: an
    identifier that is bound nowhere is a ReferenceError. *)
Definition resolve_identifier (scope : list (string * jsval)) (x : string)
    : completion jsval :=
  match assoc x scope with
  | Some v => Return v
  | None => Throw (ReferenceError (x +:+ " is not defined"))
  end.

(** The bindings of the module, lines 1-16 and the function
    declarations, and the globals of the runtime that the module uses,
    each bound to an opaque value.  Node's global object has no
    property named [record]. *)
Definition module_scope : list (string * jsval) :=
  [ ("express", JFun "express"); ("cors", JFun "cors");
    ("Web5", JFun "Web5"); ("LocalStorage", JFun "LocalStorage");
    ("app", JFun "app"); ("PORT", JFun "PORT");
    ("removeCircularReferences", JFun "removeCircularReferences");
    ("getExpirationDate", JFun "getExpirationDate");
    ("initialize", JFun "initialize");
    ("issueAndSignCredential", JFun "issueAndSignCredential");
    ("getRecord", JFun "getRecord");
    ("getPermission", JFun "getPermission");
    ("localStorage", JFun "localStorage"); ("require", JFun "require");
    ("process", JFun "process"); ("console", JFun "console");
    ("fetch", JFun "fetch"); ("JSON", JFun "JSON"); ("Date", JFun "Date");
    ("WeakSet", JFun "WeakSet"); ("undefined", JUndefined) ].

(** *** Constants of the source *)

Definition protocolUri : string := "https://vc-to-dwn.tbddev.org/vc-protocol".
Definition credentialSchema : string :=
  "https://vc-to-dwn.tbddev.org/vc-protocol/schema/credential".
Definition authorizeUrl : string :=
  "https://vc-to-dwn.tbddev.org/authorize?issuerDid=".

Definition connectOptions : jsval :=
  JObj [ ("didCreateOptions",
          JObj [("dwnEndpoints", JArr [JStr "https://dwn.gcda.xyz"])]);
         ("registration",
          JObj [("onSuccess", JFun "onSuccess");
                ("onFailure", JFun "onFailure")]) ].

Definition protocolDefinition : jsval :=
  JObj [ ("protocol", JStr protocolUri);
         ("published", JBool true);
         ("types",
          JObj [ ("credential",
                  JObj [("schema", JStr credentialSchema);
                        ("dataFormats", JArr [JStr "application/vc+jwt"])]);
                 ("issuer",
                  JObj [("schema",
                         JStr "https://vc-to-dwn.tbddev.org/vc-protocol/schema/issuer");
                        ("dataFormats", JArr [JStr "text/plain"])]);
                 ("judge",
                  JObj [("schema",
                         JStr "https://vc-to-dwn.tbddev.org/vc-protocol/schema/judge");
                        ("dataFormats", JArr [JStr "text/plain"])]) ]);
         ("structure",
          JObj [ ("issuer", JObj [("$role", JBool true)]);
                 ("judge", JObj [("$role", JBool true)]);
                 ("credential",
                  JObj [("$actions",
                         JArr [ JObj [("role", JStr "issuer");
                                      ("can", JArr [JStr "create"])];
                                JObj [("role", JStr "judge");
                                      ("can", JArr [JStr "query";
                                                    JStr "read"])] ])]) ]) ].

(** The options of [VerifiableCredential.create], lines 106-132. *)
Definition credentialOptions (issuer : option string) (custDid : jsval)
    (expirationDate : string) : jsval :=
  JObj [ ("issuer", item issuer);
         ("subject", custDid);
         ("expirationDate", JStr expirationDate);
         ("data",
          JObj [ ("countryOfResidence", JStr "KE");
                 ("tier", JStr "Bonafide Customer Tier");
                 ("jurisdiction", JObj [("country", JStr "KE")]) ]);
         ("credentialsSchema",
          JObj [ ("id", JStr "https://vc.schemas.host/kcc.schema.json");
                 ("type", JStr "JsonSchema") ]);
         ("evidence",
          JArr [ JObj [("kind", JStr "document_verification");
                       ("checks", JArr [JStr "passport";
                                        JStr "utility_bill"])];
                 JObj [("kind", JStr "sanction_screening");
                       ("checks", JArr [JStr "PEP"])] ]) ].

(** The request of [web5.dwn.records.create], lines 142-153. *)
Definition createRequest (signed_vc custDid : jsval) : jsval :=
  JObj [ ("data", signed_vc);
         ("store", JBool false);
         ("message",
          JObj [ ("protocol", JStr protocolUri);
                 ("protocolPath", JStr "credential");
                 ("schema", JStr credentialSchema);
                 ("recipient", custDid);
                 ("dataFormat", JStr "application/vc+jwt");
                 ("protocolRole", JStr "issuer") ]) ].

(** The request of [web5.dwn.records.query], lines 160-168 and
    180-188. *)
Definition queryRequest (custDid : jsval) (author : option string) : jsval :=
  JObj [ ("from", custDid);
         ("message",
          JObj [("filter",
                 JObj [ ("dataFormat", JStr "application/vc+jwt");
                        ("author", item author) ])]) ].

Section Routines.

Variable w : World.

(** [PORT], line 9: [process.env.PORT || 3000]. *)
Definition PORT : string :=
  match env_PORT w with
  | Some p => if String.eqb p "" then "3000" else p
  | None => "3000"
  end.

Definition getExpirationDate (days : option Z) : completion string :=
  JsDate.getExpirationDate (zone w) (clock w) days.

(** [JSON.stringify(dwnBearerDid, removeCircularReferences())] and
    the conversion to text that [setItem] applies to its value. *)
Definition stringify_bearer (d : BearerDid) : M string :=
  text <- lift_partial
            (JSON_stringify (graph d) removeCircularReferences (root d)) ;;
  ret (default "undefined" text).

(** [initialize], lines 40-98.  The function is [async] and its first
    statement awaits [Web5.connect]: a call runs as far as that
    [await] (the function is entered, the connection requested) and
    hands a promise back; [initialize_resumed] is what runs when the
    function is resumed, the whole [try] statement from the outcome of
    the connection on.  [initialize] is the call awaited, resumed
    where it was made. *)
Definition initialize_resumed : M unit :=
  try_catch
    (match registration w with
     | Some (Return _) =>
         setItem "registered" "true" ;;
         console_log [JStr "Registration succeeded"]
     | Some (Throw error) =>
         console_error [JStr "Registration failed:"; error]
     | None => ret tt
     end ;;
     did <- lift (Web5_connect w (Some connectOptions)) ;;
     configured <- lift (protocols_configure w
                    (JObj [("message",
                            JObj [("definition", protocolDefinition)])])) ;;
     protocol <- lift (get_prop configured "protocol") ;;
     _ <- lift (method_call protocol "send" (protocol_send w protocol did)) ;;
     setItem "didURI" did ;;
     setItem "authURL" (authorizeUrl +:+ did) ;;
     didUri <- getItem "didURI" ;;
     identity <- lift (identity_get w (JObj [("didUri", item didUri)])) ;;
     dwnBearerDid <- lift (destructure_did identity) ;;
     text <- stringify_bearer dwnBearerDid ;;
     setItem "dwnBearerDid.json" text ;;
     emit (ConsoleLogGraph dwnBearerDid))
    (fun error =>
       console_error [JStr "Initialization failed:"; error]).

Definition initialize : M unit := invoke "initialize" initialize_resumed.

(** [issueAndSignCredential], lines 101-174: the [try] block, and
    the function.  The [catch] logs and falls off the end of the
    function: the result is undefined. *)
Definition issueAndSignCredential_try (custDid : jsval) : M jsval :=
  console_log [JStr "IssueAndSignCredential"] ;;
  _ <- lift (import_credentials w) ;;
  issuer <- getItem "didURI" ;;
  expirationDate <- lift (getExpirationDate (Some 365)) ;;
  vc <- lift (VerifiableCredential_create w
                (credentialOptions issuer custDid expirationDate)) ;;
  _ <- lift (Web5_connect w None) ;;
  didUri <- getItem "didURI" ;;
  identity <- lift (identity_get w (JObj [("didUri", item didUri)])) ;;
  dwnBearerDid <- lift (destructure_did identity) ;;
  signed_vc <- lift (method_call vc "sign" (vc_sign w vc dwnBearerDid)) ;;
  created <- lift (records_create w (createRequest signed_vc custDid)) ;;
  record <- lift (get_prop created "record") ;;
  sent <- lift (method_call record "send" (record_send w record custDid)) ;;
  status <- lift (get_prop sent "status") ;;
  console_log [JStr "Record"; record] ;;
  console_log [JStr "Status"; status] ;;
  author <- getItem "didURI" ;;
  records <- lift (records_query w (queryRequest custDid author)) ;;
  ret (JObj [ ("status", status); ("record", record);
              ("id", last_record records); ("KCC", signed_vc) ]).

Definition issueAndSignCredential (custDid : jsval) : M jsval :=
  invoke "issueAndSignCredential"
    (try_catch (issueAndSignCredential_try custDid)
       (fun error =>
          console_error [JStr "Issue and sign credential failed:"; error] ;;
          ret JUndefined)).

(** The bindings in scope at the [return] of [getRecord]: its
    parameter and the two constants of its [try] block, then the
    module's. *)
Definition getRecord_scope (custDid : jsval) (records : list jsval)
    : list (string * jsval) :=
  [ ("records", JArr records); ("web5", JFun "web5");
    ("custDid", custDid) ] ++ module_scope.

(** [getRecord], lines 177-203: the [try] block, and the function.
    The object literal of the [return] evaluates
    [records[records.length - 1]] and then the identifier [record];
    the [catch] returns what was thrown. *)
Definition getRecord_try (custDid : jsval) : M jsval :=
  _ <- lift (Web5_connect w None) ;;
  author <- getItem "didURI" ;;
  records <- lift (records_query w (queryRequest custDid author)) ;;
  let record_field := last_record records in
  content <- lift (resolve_identifier
                     (getRecord_scope custDid records) "record") ;;
  ret (JObj [("record", record_field); ("content", content)]).

Definition getRecord (custDid : jsval) : M jsval :=
  invoke "getRecord" (try_catch (getRecord_try custDid) (fun e => ret e)).

(** [getPermission], lines 206-215. *)
Definition getPermission : M jsval :=
  invoke "getPermission"
    (try_catch
       (didUri <- getItem "didURI" ;;
        response <- lift (fetch w (authorizeUrl +:+ item_text didUri)) ;;
        data <- lift (method_call response "json" (response_json w response)) ;;
        console_log [JStr "GET PERMISSION"; data] ;;
        ret data)
       (fun error =>
          console_error [JStr "Get permission failed:"; error] ;;
          ret JUndefined)).

(** *** Routes

    A request carries the body that [express.json()] parsed, an
    object.  A handler is an [async] function: a throw is a rejected
    promise, after which the handler sends nothing more. *)
Record Request : Type := { body : list (string * jsval) }.

Definition body_custDid (req : Request) : jsval :=
  default JUndefined (assoc "custDid" (body req)).

(** [app.post("/")], lines 218-222. *)
Definition post_root (req : Request) : M unit :=
  let custDid := body_custDid req in
  records <- getRecord custDid ;;
  res_send records.

(** [app.post("/get-credential")], lines 224-235, in three steps:
    the permission check of lines 227-231, the issuance of line 233
    and the response of line 234, which reads the four fields of
    [data] and falls back to the empty string on a nullish one. *)
Definition ensure_permission : M unit :=
  permission <- getItem "permission" ;;
  if is_not_true permission then
    _ <- getPermission ;;
    setItem "permission" "true"
  else ret tt.

Definition respond_credential (data : jsval) : M unit :=
  status <- lift (get_prop data "status") ;;
  record <- lift (get_prop data "record") ;;
  id <- lift (get_prop data "id") ;;
  KCC <- lift (get_prop data "KCC") ;;
  res_json (JObj [ ("status", nullish status (JStr ""));
                   ("record", nullish record (JStr ""));
                   ("id", nullish id (JStr ""));
                   ("KCC", nullish KCC (JStr "")) ]).

Definition post_get_credential (req : Request) : M unit :=
  let custDid := body_custDid req in
  ensure_permission ;;
  data <- issueAndSignCredential custDid ;;
  respond_credential data.

(** [app.post("/get-permission")], lines 237-241. *)
Definition post_get_permission (req : Request) : M unit :=
  data <- getPermission ;;
  res_json data ;;
  setItem "permission" "true".

(** The callback of [app.listen], lines 244-252, run once when the
    process has started, together with the task it leaves behind.
    Line 246 calls [initialize()] without awaiting it: the function is
    entered and suspends at its first [await], the callback goes on to
    log the port and returns, and only then is [initialize] resumed.
    The promise of [initialize] is passed to [then] with a callback
    that does nothing; the completion of the run is that of the
    resumed task. *)
Definition on_listen : M unit :=
  registered <- getItem "registered" ;;
  (if is_not_true registered then
     emit (Invoke "initialize")
   else
     console_log [JStr "Already registered"] ;;
     didURI <- getItem "didURI" ;;
     authURL <- getItem "authURL" ;;
     console_log [item didURI; JStr "DID URI"; item authURL;
                  JStr "Auth URL"]) ;;
  console_log [JStr ("Server is running on port " +:+ PORT)] ;;
  if is_not_true registered then initialize_resumed else ret tt.

End Routines.

(** *** Observations *)

(** The events that a run added to the trace. *)
Definition new_events (st st' : state) : list event :=
  drop (length (trace st)) (trace st').

(** The HTTP response of a handler's run: the first [res.send] or
    [res.json] among the events, with its status code and body. *)
Fixpoint response (evs : list event) : option (Z * jsval) :=
  match evs with
  | [] => None
  | ResSend c b :: _ => Some (c, b)
  | ResJson c b :: _ => Some (c, b)
  | _ :: evs' => response evs'
  end.

(** [emits P m]: a run of [m] only adds events, all of which satisfy
    [P].  [keeps_store m]: a run of [m] leaves the store as it is. *)
Definition emits (P : event -> Prop) {A} (m : M A) : Prop :=
  forall st, exists evs,
    trace (m st).1 = (trace st ++ evs)%list /\ Forall P evs.

Definition keeps_store {A} (m : M A) : Prop :=
  forall st, store (m st).1 = store st.

(** Console output, and the events of the routine [fn]: its entry and
    console output. *)
Definition console_only (ev : event) : Prop :=
  match ev with
  | ConsoleLog _ | ConsoleLogGraph _ | ConsoleError _ => True
  | _ => False
  end.

Definition of_routine (fn : string) (ev : event) : Prop :=
  ev = Invoke fn \/ console_only ev.

(** How often the routine [fn] was entered. *)
Fixpoint invocations (fn : string) (evs : list event) : nat :=
  match evs with
  | [] => O
  | Invoke f :: evs' =>
      if String.eqb f fn then S (invocations fn evs') else invocations fn evs'
  | _ :: evs' => invocations fn evs'
  end.

(** The process state at a first start: nothing stored, nothing done;
    and at a restart after a registration that succeeded. *)
Definition first_start : state := {| store := ∅; trace := [] |}.

Definition restart : state :=
  {| store := <["registered" := "true"]> {["didURI" := "did:dht:issuer"]};
     trace := [] |}.

(** *** Sample collaborators *)

(** A bearer identity whose document refers back to the identity and
    lists one key object twice. *)
Definition sampleBearer : BearerDid :=
  {| graph :=
       <[ 0%nat := Obj [("uri", VStr "did:dht:issuer");
                        ("document", VRef 1%nat);
                        ("keys", VRef 2%nat)] ]>
       (<[ 1%nat := Obj [("id", VStr "did:dht:issuer");
                         ("controller", VRef 0%nat);
                         ("verificationMethod", VRef 3%nat)] ]>
        (<[ 2%nat := Arr [VRef 3%nat; VRef 3%nat] ]>
         {[ 3%nat := Obj [("kty", VStr "OKP")] ]}));
     root := VRef 0%nat |}.

(** Every call succeeds; the gateway answers with a denial. *)
Definition happyWorld : World :=
  {| clock := 1709208000000;
     zone := JsDate.utcZone;
     env_PORT := None;
     import_credentials := Return tt;
     Web5_connect := fun _ => Return "did:dht:issuer";
     registration := Some (Return tt);
     protocols_configure := fun _ => Return (JObj [("protocol", JHandle 1)]);
     protocol_send := fun _ _ => Return (JObj [("status", JNum 202)]);
     identity_get := fun _ => Return (Some sampleBearer);
     VerifiableCredential_create := fun options =>
       Return (JObj [("vcDataModel", options)]);
     vc_sign := fun _ _ => Return (JStr "eyJhbGciOiJFZERTQSJ9.e30.c2ln");
     records_create := fun _ =>
       Return (JObj [("record", JHandle 7); ("status", JNum 202)]);
     record_send := fun _ _ =>
       Return (JObj [("status", JObj [("code", JNum 202);
                                      ("detail", JStr "Accepted")])]);
     records_query := fun _ => Return [JHandle 5; JHandle 7];
     fetch := fun _ => Return (JHandle 9);
     response_json := fun _ =>
       Return (JObj [("approved", JBool false); ("error", JStr "denied")]) |}.

(** No network: every call of the SDK and of [fetch] throws. *)
Definition networkError : jsval := JErr "Error" "fetch failed".

Definition offlineWorld : World :=
  {| clock := 1709208000000;
     zone := JsDate.utcZone;
     env_PORT := Some "8080";
     import_credentials := Return tt;
     Web5_connect := fun _ => Throw networkError;
     registration := None;
     protocols_configure := fun _ => Throw networkError;
     protocol_send := fun _ _ => Throw networkError;
     identity_get := fun _ => Throw networkError;
     VerifiableCredential_create := fun options =>
       Return (JObj [("vcDataModel", options)]);
     vc_sign := fun _ _ => Throw networkError;
     records_create := fun _ => Throw networkError;
     record_send := fun _ _ => Throw networkError;
     records_query := fun _ => Throw networkError;
     fetch := fun _ => Throw networkError;
     response_json := fun _ => Throw networkError |}.

Definition sampleRequest : Request :=
  {| body := [("custDid", JStr "did:dht:customer")] |}.

(** *** Further observations and collaborators *)

(** How many responses a run sent: the calls of [res.send] and
    [res.json] among its events. *)
Fixpoint responses (evs : list event) : nat :=
  match evs with
  | [] => O
  | ResSend _ _ :: evs' => S (responses evs')
  | ResJson _ _ :: evs' => S (responses evs')
  | _ :: evs' => responses evs'
  end.

(** The bearer identities that the SDK hands out are object graphs
    whose references all lead to objects. *)
Definition bearers_closed (w : World) : Prop :=
  forall request d,
    identity_get w request = Return (Some d) ->
    heap_closed (graph d) /\ value_closed (graph d) (root d).

(** The SDK reports the registration as done, and the configuration of
    the protocol then fails. *)
Definition halfRegisteredWorld : World :=
  {| clock := clock happyWorld;
     zone := zone happyWorld;
     env_PORT := env_PORT happyWorld;
     import_credentials := import_credentials happyWorld;
     Web5_connect := Web5_connect happyWorld;
     registration := Some (Return tt);
     protocols_configure := fun _ => Throw networkError;
     protocol_send := protocol_send happyWorld;
     identity_get := identity_get happyWorld;
     VerifiableCredential_create := VerifiableCredential_create happyWorld;
     vc_sign := vc_sign happyWorld;
     records_create := records_create happyWorld;
     record_send := record_send happyWorld;
     records_query := records_query happyWorld;
     fetch := fetch happyWorld;
     response_json := response_json happyWorld |}.

(** Every call succeeds and the customer's DWN holds no record that
    matches the query. *)
Definition emptyQueryWorld : World :=
  {| clock := clock happyWorld;
     zone := zone happyWorld;
     env_PORT := env_PORT happyWorld;
     import_credentials := import_credentials happyWorld;
     Web5_connect := Web5_connect happyWorld;
     registration := registration happyWorld;
     protocols_configure := protocols_configure happyWorld;
     protocol_send := protocol_send happyWorld;
     identity_get := identity_get happyWorld;
     VerifiableCredential_create := VerifiableCredential_create happyWorld;
     vc_sign := vc_sign happyWorld;
     records_create := records_create happyWorld;
     record_send := record_send happyWorld;
     records_query := fun _ => Return [];
     fetch := fetch happyWorld;
     response_json := response_json happyWorld |}.

(** A host whose clock stands at the last representable instant. *)
Definition lateClockWorld : World :=
  {| clock := JsDate.maxTime;
     zone := zone happyWorld;
     env_PORT := env_PORT happyWorld;
     import_credentials := import_credentials happyWorld;
     Web5_connect := Web5_connect happyWorld;
     registration := registration happyWorld;
     protocols_configure := protocols_configure happyWorld;
     protocol_send := protocol_send happyWorld;
     identity_get := identity_get happyWorld;
     VerifiableCredential_create := VerifiableCredential_create happyWorld;
     vc_sign := vc_sign happyWorld;
     records_create := records_create happyWorld;
     record_send := record_send happyWorld;
     records_query := records_query happyWorld;
     fetch := fetch happyWorld;
     response_json := response_json happyWorld |}.

(** The shape of what [issueAndSignCredential] returns when its [try]
    block reaches the [return]. *)
Definition issued (v : jsval) : Prop :=
  exists status record id KCC,
    v = JObj [("status", status); ("record", record); ("id", id); ("KCC", KCC)].

End Service.


(** * Properties *)

(** ** Dates *)

Section DateFacts.

Import JsDate.

Local Ltac split_tests :=
  repeat match goal with
  | |- context [negb (?a =? ?b)] => destruct (Z.eqb_spec a b); simpl
  end.

Lemma DayFromYear_succ y : DayFromYear (y + 1) = DayFromYear y + DaysInYear y.
Proof.
  unfold DayFromYear, DaysInYear. split_tests;
    Z.div_mod_to_equations; lia.
Qed.

Lemma DaysInYear_range y : 365 <= DaysInYear y <= 366.
Proof. unfold DaysInYear. split_tests; lia. Qed.

(** [YearFromTime] is the year the day of [t] falls in. *)
Lemma YearFromTime_spec t :
  DayFromYear (YearFromTime t) <= Day t < DayFromYear (YearFromTime t + 1).
Proof.
  unfold YearFromTime.
  set (d := Day t). set (y0 := 1970 + 400 * d / 146097).
  destruct (Z.ltb_spec d (DayFromYear y0)) as [Hlt | Hge].
  - split.
    + unfold DayFromYear in *. subst y0. Z.div_mod_to_equations. lia.
    + replace (y0 - 1 + 1) with y0 by lia. exact Hlt.
  - destruct (Z.leb_spec (DayFromYear (y0 + 1)) d) as [Hle | Hlt].
    + split; [exact Hle |].
      unfold DayFromYear in *. subst y0. Z.div_mod_to_equations. lia.
    + split; [exact Hge | exact Hlt].
Qed.

Lemma MonthFromTime_range t : 0 <= MonthFromTime t <= 11.
Proof.
  unfold MonthFromTime.
  repeat match goal with
  | |- context [if ?a <? ?b then _ else _] => destruct (a <? b)
  end; lia.
Qed.

(** The day of the month counts from the first day of the month:
    [DateFromTime] is between 1 and 31. *)
Lemma DateFromTime_range t : 1 <= DateFromTime t <= 31.
Proof.
  pose proof (YearFromTime_spec t) as Hy.
  rewrite DayFromYear_succ in Hy.
  unfold DateFromTime, MonthFromTime, DayWithinYear, InLeapYear.
  pose proof (DaysInYear_range (YearFromTime t)) as Hr.
  destruct (Z.eqb_spec (DaysInYear (YearFromTime t)) 366) as [He | He];
    repeat match goal with
    | |- context [if ?a <? ?b then _ else _] =>
        destruct (Z.ltb_spec a b)
    end; simpl; lia.
Qed.

(** Setting the day of the month to the current one plus [n] moves
    the day number by [n]: the carry into later months and years is
    what [MakeDay] computes. *)
Lemma MakeDay_shift t n :
  MakeDay (YearFromTime t) (MonthFromTime t) (DateFromTime t + n) = Day t + n.
Proof.
  pose proof (MonthFromTime_range t) as Hm.
  unfold MakeDay.
  rewrite Z.div_small, Z.mod_small, Z.add_0_r by lia.
  unfold DateFromTime, DayWithinYear, InLeapYear. lia.
Qed.

Lemma MakeDate_split t : MakeDate (Day t) (TimeWithinDay t) = t.
Proof.
  unfold MakeDate, Day, TimeWithinDay, msPerDay.
  Z.div_mod_to_equations. lia.
Qed.

Lemma Day_shift t n : Day (t + n * msPerDay) = Day t + n.
Proof. unfold Day, msPerDay. Z.div_mod_to_equations. lia. Qed.

Lemma TimeWithinDay_shift t n :
  TimeWithinDay (t + n * msPerDay) = TimeWithinDay t.
Proof. unfold TimeWithinDay, msPerDay. Z.div_mod_to_equations. lia. Qed.

Section Zone.

Variable tz : Z -> bool -> Z.

(** [date.setDate(date.getDate() + n)] adds [n] days to the local
    time and converts back to UTC. *)
Lemma setDate_getDate t n :
  setDate tz (Some t) (Some (DateFromTime (LocalTime tz t) + n)) =
  TimeClip (UTC tz (LocalTime tz t + n * msPerDay)).
Proof.
  unfold setDate. f_equal. f_equal.
  rewrite MakeDay_shift. unfold MakeDate.
  pose proof (MakeDate_split (LocalTime tz t)) as Hs.
  unfold MakeDate in Hs. lia.
Qed.

Lemma getExpirationDate_unfold now n :
  getExpirationDate tz now (Some n) =
  toISOString (TimeClip (UTC tz (LocalTime tz now + n * msPerDay))).
Proof.
  unfold getExpirationDate, getDate, default.
  by rewrite setDate_getDate.
Qed.

End Zone.

(** On a host whose offset from UTC never changes, the expiration is
    the invocation time plus [n] times 86400000 milliseconds. *)
Lemma getExpirationDate_fixed_offset offset now n :
  Z.abs (now + n * msPerDay) <= maxTime ->
  getExpirationDate (fun _ _ => offset) now (Some n) =
  Return (isoFormat (now + n * msPerDay)).
Proof.
  intros Hr. rewrite getExpirationDate_unfold.
  unfold UTC, LocalTime, TimeClip.
  replace (now + offset + n * msPerDay - offset) with (now + n * msPerDay)
    by lia.
  destruct (Z.ltb_spec maxTime (Z.abs (now + n * msPerDay))); [lia | done].
Qed.

(** Invoked on 29 February 2024 at noon UTC, on a host on UTC: the
    365th day after is 28 February 2025. *)
Example getExpirationDate_leap_day :
  isoFormat 1709208000000 = "2024-02-29T12:00:00.000Z" /\
  getExpirationDate utcZone 1709208000000 (Some 365) =
    Return "2025-02-28T12:00:00.000Z".
Proof. split; reflexivity. Qed.

(** Invoked on 9 March 2024 at noon in New York (17:00 UTC): the
    result is noon in New York on 9 March 2025, which is 16:00 UTC,
    one hour less than 365 times 24 hours later. *)
Example getExpirationDate_across_dst :
  isoFormat 1710003600000 = "2024-03-09T17:00:00.000Z" /\
  getExpirationDate dstZone 1710003600000 (Some 365) =
    Return "2025-03-09T16:00:00.000Z" /\
  isoFormat (1710003600000 + 365 * msPerDay) = "2025-03-09T17:00:00.000Z".
Proof. repeat split; reflexivity. Qed.

(** Without an argument the expiration is 30 days away. *)
Example getExpirationDate_default :
  getExpirationDate utcZone 1735603200000 None =
    Return "2025-01-30T00:00:00.000Z".
Proof. reflexivity. Qed.



(** When the local time 365 days on exists in the host's zone, it is
    the local time of the result. *)
Lemma getExpirationDate_local_fields (tz : Z -> bool -> Z) (now : Z) :
  let target := LocalTime tz now + 365 * msPerDay in
  Z.abs (UTC tz target) <= maxTime ->
  LocalTime tz (UTC tz target) = target ->
  exists u,
    getExpirationDate tz now (Some 365) = Return (isoFormat u) /\
    Day (LocalTime tz u) = Day (LocalTime tz now) + 365 /\
    TimeWithinDay (LocalTime tz u) = TimeWithinDay (LocalTime tz now).
Proof.
  intros target Hrange Hlocal. exists (UTC tz target).
  rewrite getExpirationDate_unfold. fold target.
  rewrite Hlocal. unfold target.
  rewrite Day_shift, TimeWithinDay_shift.
  repeat split; try reflexivity.
  unfold TimeClip. fold target.
  destruct (Z.ltb_spec maxTime (Z.abs (UTC tz target))); [lia | done].
Qed.

(** Past the range of time values the date is invalid and
    [toISOString] throws. *)
Example getExpirationDate_out_of_range :
  getExpirationDate utcZone maxTime (Some 365) =
    Throw (RangeError "Invalid time value").
Proof. reflexivity. Qed.

End DateFacts.

(** ** Serialization with [removeCircularReferences] *)

Section StringifyFacts.

Import JsonStringify.

Variable h : heap.

Local Abbreviation Ser := (SerializeJSONProperty h removeCircularReferences).

Lemma Ser_primitive fuel stack (seen : gset loc) key v :
  (forall l, v <> VRef l) ->
  Ser fuel stack seen key v =
  Some (Return (seen,
    match v with
    | VNull => Some JsNull
    | VBool b => Some (JsBool b)
    | VNum z => Some (JsNum z)
    | VStr s => Some (JsStr s)
    | _ => None
    end)).
Proof. intros Hv. destruct fuel, v; try reflexivity; by destruct (Hv l). Qed.

(** A reference that the replacer has seen is replaced by undefined. *)
Lemma Ser_repeated fuel stack (seen : gset loc) key l :
  l ∈ seen -> Ser fuel stack seen key (VRef l) = Some (Return (seen, None)).
Proof. intros Hl. destruct fuel; simpl; by rewrite decide_True. Qed.

(** A reference that the replacer sees for the first time is kept,
    and the object is serialized with the reference in [seen]. *)
Lemma Ser_first fuel stack (seen : gset loc) key l :
  l ∉ seen ->
  Ser fuel stack seen key (VRef l) =
  let ser := match fuel with O => None | S fuel' => Some (Ser fuel') end in
  match h !! l with
  | None => None
  | Some (Obj props) =>
      SerializeJSONObject removeCircularReferences ser stack
        ({[l]} ∪ seen) l props
  | Some (Arr elems) =>
      SerializeJSONArray removeCircularReferences ser stack
        ({[l]} ∪ seen) l elems
  end.
Proof. intros Hl. destruct fuel; simpl; by rewrite decide_False. Qed.

Lemma unseen_size_mono (seen seen' : gset loc) :
  seen ⊆ seen' -> (size (dom h ∖ seen') <= size (dom h ∖ seen))%nat.
Proof. intros Hs. apply subseteq_size. set_solver. Qed.

Lemma unseen_size_first (seen : gset loc) l :
  is_Some (h !! l) -> l ∉ seen ->
  size (dom h ∖ seen) = S (size (dom h ∖ ({[l]} ∪ seen))).
Proof.
  intros Hl Hn. apply elem_of_dom in Hl.
  replace (dom h ∖ seen) with ({[l]} ∪ dom h ∖ ({[l]} ∪ seen)).
  - rewrite size_union by set_solver. by rewrite size_singleton.
  - apply set_eq. intros x. destruct (decide (x = l)); set_solver.
Qed.

Lemma members_ok fuel stack props :
  Ser_ok h fuel stack ->
  Forall (fun kv => value_closed h kv.2) props ->
  forall seen : gset loc,
    (forall l, l ∈ stack -> l ∈ seen) ->
    (size (dom h ∖ seen) < fuel)%nat ->
    exists seen' ms,
      serialize_members removeCircularReferences (Ser fuel stack) props seen =
        Some (Return (seen', ms)) /\
      WalkProps h seen props seen' ms /\ seen ⊆ seen'.
Proof.
  intros Hser Hprops. induction Hprops as [| [k v] props Hv _ IH];
    intros seen Hstack Hfuel.
  - exists seen, []. repeat split; [constructor | done].
  - destruct (Hser seen k v Hv Hstack Hfuel) as (seen1 & o & E1 & W1 & S1).
    destruct (IH seen1) as (seen2 & ms & E2 & W2 & S2).
    { intros l Hl. apply S1, Hstack, Hl. }
    { pose proof (unseen_size_mono _ _ S1). lia. }
    simpl. rewrite E1, E2.
    destruct o as [j |]; eexists _, _; (split; [reflexivity |]);
      (split; [econstructor; eassumption | set_solver]).
Qed.

Lemma elements_ok fuel stack elems :
  Ser_ok h fuel stack ->
  Forall (value_closed h) elems ->
  forall (i : nat) (seen : gset loc),
    (forall l, l ∈ stack -> l ∈ seen) ->
    (size (dom h ∖ seen) < fuel)%nat ->
    exists seen' js,
      serialize_elements removeCircularReferences (Ser fuel stack) i elems seen =
        Some (Return (seen', js)) /\
      WalkElems h seen elems seen' js /\ seen ⊆ seen'.
Proof.
  intros Hser Helems. induction Helems as [| v elems Hv _ IH];
    intros i seen Hstack Hfuel.
  - exists seen, []. repeat split; [constructor | done].
  - destruct (Hser seen (pretty i) v Hv Hstack Hfuel)
      as (seen1 & o & E1 & W1 & S1).
    destruct (IH (S i) seen1) as (seen2 & js & E2 & W2 & S2).
    { intros l Hl. apply S1, Hstack, Hl. }
    { pose proof (unseen_size_mono _ _ S1). lia. }
    simpl. rewrite E1, E2.
    eexists _, _. split; [reflexivity |].
    split; [econstructor; eassumption | set_solver].
Qed.

Hypothesis Hclosed : heap_closed h.

Lemma Ser_ok_all fuel : forall stack, Ser_ok h fuel stack.
Proof.
  induction fuel as [| fuel IH]; intros stack seen key v Hv Hstack Hfuel;
    [lia |].
  destruct v as [| | b | z | s | l];
    try (rewrite Ser_primitive by done; eexists _, _;
         split; [reflexivity |]; split; [constructor | done]).
  destruct (decide (l ∈ seen)) as [Hin | Hnew].
  { rewrite Ser_repeated by done. eexists _, _.
    split; [reflexivity |]. split; [by constructor | done]. }
  rewrite Ser_first by done. simpl.
  destruct Hv as [o Ho]. rewrite Ho.
  assert (Hl : l ∉ stack) by (intros Hl; apply Hnew, Hstack, Hl).
  assert (Hstack' : forall x, x ∈ l :: stack -> x ∈ {[l]} ∪ seen).
  { intros x [-> | Hx]%elem_of_cons; [set_solver |].
    apply elem_of_union_r, Hstack, Hx. }
  assert (Hfuel' : (size (dom h ∖ ({[l]} ∪ seen)) < fuel)%nat).
  { rewrite (unseen_size_first seen l) in Hfuel by eauto. lia. }
  pose proof (Hclosed l o Ho) as Ho'.
  destruct o as [props | elems]; simpl in Ho'.
  - unfold SerializeJSONObject. rewrite decide_False by done.
    destruct (members_ok fuel (l :: stack) props (IH _) Ho' _ Hstack' Hfuel')
      as (seen' & ms & E & W & Hs).
    rewrite E. eexists _, _. split; [reflexivity |].
    split; [by eapply Walk_object | set_solver].
  - unfold SerializeJSONArray. rewrite decide_False by done.
    destruct (elements_ok fuel (l :: stack) elems (IH _) Ho' 0%nat _
                Hstack' Hfuel')
      as (seen' & js & E & W & Hs).
    rewrite E. eexists _, _. split; [reflexivity |].
    split; [by eapply Walk_array | set_solver].
Qed.

End StringifyFacts.

Section StringifyClaims.

Import JsonStringify.

(** The walk only adds to [seen], and a reference that was walked is
    in [seen] afterwards. *)
Lemma Walk_seen_mutual h :
  (forall seen v seen' o, Walk h seen v seen' o ->
     seen ⊆ seen' /\ (forall l, v = VRef l -> l ∈ seen')) /\
  (forall seen props seen' ms, WalkProps h seen props seen' ms ->
     seen ⊆ seen') /\
  (forall seen elems seen' js, WalkElems h seen elems seen' js ->
     seen ⊆ seen').
Proof.
  apply Walk_mutind; intros; try (split; [done | intros ? [=]]);
    try done; try (split; [| intros ? [= <-]]); set_solver.
Qed.

Lemma Walk_seen h seen v seen' o :
  Walk h seen v seen' o ->
  seen ⊆ seen' /\ (forall l, v = VRef l -> l ∈ seen').
Proof. apply Walk_seen_mutual. Qed.

(** The first occurrence of an object is kept. *)
Lemma Walk_first_kept h seen l seen' o :
  Walk h seen (VRef l) seen' o -> l ∉ seen -> is_Some o.
Proof. intros W Hl. inversion W; subst; eauto; done. Qed.

(** The walk is a function of the graph, the value and [seen]. *)
Lemma Walk_deterministic_mutual h :
  (forall seen v seen1 o1, Walk h seen v seen1 o1 ->
     forall seen2 o2, Walk h seen v seen2 o2 -> seen1 = seen2 /\ o1 = o2) /\
  (forall seen props seen1 ms1, WalkProps h seen props seen1 ms1 ->
     forall seen2 ms2, WalkProps h seen props seen2 ms2 ->
     seen1 = seen2 /\ ms1 = ms2) /\
  (forall seen elems seen1 js1, WalkElems h seen elems seen1 js1 ->
     forall seen2 js2, WalkElems h seen elems seen2 js2 ->
     seen1 = seen2 /\ js1 = js2).
Proof.
  apply Walk_mutind.
  1-5: by intros; match goal with H : Walk _ _ _ _ _ |- _ => inversion H end.
  - intros seen l Hl seen2 o2 W. by inversion W; subst.
  - intros seen l props seen' ms Hl Ho Wp IH seen2 o2 W.
    inversion W; subst; try done; simplify_eq.
    by destruct (IH _ _ ltac:(eassumption)) as [-> ->].
  - intros seen l elems seen' js Hl Ho We IH seen2 o2 W.
    inversion W; subst; try done; simplify_eq.
    by destruct (IH _ _ ltac:(eassumption)) as [-> ->].
  - intros seen seen2 ms2 W. by inversion W.
  - intros seen k v seen1 j props seen2 ms W1 IH1 W2 IH2 seen3 ms3 W.
    inversion W; subst;
      destruct (IH1 _ _ ltac:(eassumption)) as [-> [=]]; subst.
    by destruct (IH2 _ _ ltac:(eassumption)) as [-> ->].
  - intros seen k v seen1 props seen2 ms W1 IH1 W2 IH2 seen3 ms3 W.
    inversion W; subst;
      destruct (IH1 _ _ ltac:(eassumption)) as [-> [=]]; subst.
    by destruct (IH2 _ _ ltac:(eassumption)) as [-> ->].
  - intros seen seen2 js2 W. by inversion W.
  - intros seen v seen1 o elems seen2 js W1 IH1 W2 IH2 seen3 js3 W.
    inversion W; subst.
    destruct (IH1 _ _ ltac:(eassumption)) as [-> ->].
    by destruct (IH2 _ _ ltac:(eassumption)) as [-> ->].
Qed.

Lemma Walk_deterministic h seen v seen1 o1 seen2 o2 :
  Walk h seen v seen1 o1 -> Walk h seen v seen2 o2 ->
  seen1 = seen2 /\ o1 = o2.
Proof. intros W1 W2. eapply Walk_deterministic_mutual; eauto. Qed.

(** A member of the output stems from a property of the object. *)
Lemma WalkProps_keys h seen props seen' ms k :
  WalkProps h seen props seen' ms -> k ∈ ms.*1 -> k ∈ props.*1.
Proof.
  induction 1 as [ | seen k' v seen1 j props seen2 ms W1 W2 IH
    | seen k' v seen1 props seen2 ms W1 W2 IH]; simpl.
  - done.
  - intros [-> | Hk]%elem_of_cons; [left | right; auto].
  - intros Hk. right. auto.
Qed.

(** A property that holds a reference already seen is left out: its
    key is not in the output (keys are those of one object, hence
    distinct). *)
Lemma WalkProps_repeated_absent h seen props seen' ms k l :
  WalkProps h seen props seen' ms ->
  NoDup props.*1 -> (k, VRef l) ∈ props -> l ∈ seen -> k ∉ ms.*1.
Proof.
  induction 1 as [ | seen k' v seen1 j props seen2 ms W1 W2 IH
    | seen k' v seen1 props seen2 ms W1 W2 IH];
    simpl; intros Hnd Hin Hl.
  - by apply elem_of_nil in Hin.
  - apply NoDup_cons in Hnd as [Hk' Hnd].
    apply elem_of_cons in Hin as [[= <- <-] | Hin].
    + inversion W1; subst; done.
    + intros [-> | Hk]%elem_of_cons.
      * apply Hk'. apply (list_elem_of_fmap_2 fst) in Hin. done.
      * apply Walk_seen in W1 as [S1 _]. apply IH in Hk; auto.
  - apply NoDup_cons in Hnd as [Hk' Hnd].
    apply elem_of_cons in Hin as [[= <- <-] | Hin].
    + intros Hk. apply Hk'. eapply WalkProps_keys; eauto.
    + apply Walk_seen in W1 as [S1 _]. apply IH; auto.
Qed.

(** Two properties of one object that hold the same reference: the
    second one is left out of the output, cycle or not. *)
Lemma WalkProps_second_absent h seen pre k1 mid k2 post l seen' ms :
  WalkProps h seen (pre ++ (k1, VRef l) :: mid ++ (k2, VRef l) :: post)
    seen' ms ->
  NoDup (pre ++ (k1, VRef l) :: mid ++ (k2, VRef l) :: post)%list.*1 ->
  k2 ∉ ms.*1.
Proof.
  revert seen ms. induction pre as [| [k v] pre IH]; simpl; intros seen ms W Hnd.
  - apply NoDup_cons in Hnd as [Hk1 Hnd].
    assert (Hk2 : (k2, VRef l) ∈ (mid ++ (k2, VRef l) :: post)%list)
      by (apply elem_of_app; right; left).
    inversion W as [ | ? ? ? seen1 j ? ? ms' W1 W2
      | ? ? ? seen1 ? ? ? W1 W2]; subst.
    + apply Walk_seen in W1 as [_ Hl].
      intros [-> | Hk]%elem_of_cons.
      * apply Hk1. apply (list_elem_of_fmap_2 fst) in Hk2. done.
      * revert Hk. eapply WalkProps_repeated_absent; eauto.
    + apply Walk_seen in W1 as [_ Hl].
      eapply WalkProps_repeated_absent; eauto.
  - apply NoDup_cons in Hnd as [Hk Hnd].
    inversion W as [ | ? ? ? seen1 j ? ? ms' W1 W2
      | ? ? ? seen1 ? ? ? W1 W2]; subst.
    + intros [-> | Hk2]%elem_of_cons.
      * apply Hk. rewrite fmap_app. apply elem_of_app. right. simpl. right.
        rewrite fmap_app. apply elem_of_app. right. left.
      * revert Hk2. eapply IH; eauto.
    + eapply IH; eauto.
Qed.

(** On a closed graph the serialization returns the walk from an
    empty [seen]. *)
Lemma stringify_tree_walk (h : heap) (v : value) :
  heap_closed h -> value_closed h v ->
  exists seen' o,
    stringify_tree h removeCircularReferences v = Some (Return o) /\
    Walk h ∅ v seen' o.
Proof.
  intros Hh Hv.
  destruct (Ser_ok_all h Hh (S (size h)) [] ∅ "" v Hv) as (seen' & o & E & W & _).
  { intros l Hl. by apply elem_of_nil in Hl. }
  { rewrite difference_empty_L, size_dom. lia. }
  exists seen', o. unfold stringify_tree.
  change (rinit removeCircularReferences) with (∅ : gset loc).
  rewrite E. auto.
Qed.

(** C6, as amended.  On every object graph, [JSON.stringify] with the
    [removeCircularReferences] replacer returns (no TypeError for a
    circular structure, whatever the cycles), and what it returns is
    the depth-first walk that keeps the first occurrence of every
    object and drops every repeated reference, cyclic or merely
    shared: a property holding one is left out of its object, an
    array element holding one is serialized as null. *)
Theorem stringify_removeCircularReferences_walk (h : heap) (v : value) :
  heap_closed h -> value_closed h v ->
  exists seen' o,
    stringify_tree h removeCircularReferences v = Some (Return o) /\
    JSON_stringify h removeCircularReferences v =
      Some (Return (render <$> o)) /\
    Walk h ∅ v seen' o.
Proof.
  intros Hh Hv.
  destruct (stringify_tree_walk h v Hh Hv) as (seen' & o & E & W).
  exists seen', o. unfold JSON_stringify. rewrite E. auto.
Qed.

Local Ltac on_heap := simpl; eexists; vm_compute; reflexivity.

Lemma cyclicGraph_closed : heap_closed cyclicGraph.
Proof.
  intros l o Hl. unfold cyclicGraph in Hl.
  apply lookup_singleton_Some in Hl as [<- <-].
  repeat constructor. on_heap.
Qed.

Lemma stringify_removeCircularReferences_walk_witness :
  exists seen' o,
    stringify_tree cyclicGraph removeCircularReferences (VRef 0%nat) =
      Some (Return o) /\
    JSON_stringify cyclicGraph removeCircularReferences (VRef 0%nat) =
      Some (Return (render <$> o)) /\
    Walk cyclicGraph ∅ (VRef 0%nat) seen' o.
Proof.
  apply (stringify_removeCircularReferences_walk cyclicGraph (VRef 0%nat)).
  - exact cyclicGraph_closed.
  - on_heap.
Defined.

(** The second of two properties of the root that hold the same
    object is absent from the serialization. *)
Lemma stringify_shared_second_absent (h : heap) r pre k1 mid k2 post l :
  heap_closed h ->
  h !! r = Some (Obj (pre ++ (k1, VRef l) :: mid ++ (k2, VRef l) :: post)) ->
  NoDup (pre ++ (k1, VRef l) :: mid ++ (k2, VRef l) :: post)%list.*1 ->
  exists ms,
    stringify_tree h removeCircularReferences (VRef r) =
      Some (Return (Some (JsObject ms))) /\
    k2 ∉ ms.*1.
Proof.
  intros Hh Hr Hnd.
  destruct (stringify_tree_walk h (VRef r) Hh)
    as (seen' & o & E & W); [simpl; eauto |].
  inversion W as [ | | | | | ? ? Hin | ? ? props ? ms Hn Ho Wp
    | ? ? elems ? js Hn Ho We]; subst.
  - by apply not_elem_of_empty in Hin.
  - rewrite Hr in Ho. injection Ho as <-.
    exists ms. split; [done |]. eapply WalkProps_second_absent; eauto.
  - rewrite Hr in Ho. discriminate.
Qed.

(** The cycle of [cyclicGraph] is cut: the key [self] is absent.
    Without the replacer the serialization is a TypeError. *)
Example stringify_cyclicGraph :
  JSON_stringify cyclicGraph removeCircularReferences (VRef 0%nat) =
    Some (Return (Some ("{" +:+ dquote +:+ "name" +:+ dquote +:+ ":" +:+
                        dquote +:+ "a" +:+ dquote +:+ "}"))) /\
  stringify_tree cyclicGraph removeCircularReferences (VRef 0%nat) =
    Some (Return (Some (JsObject [("name", JsStr "a")]))) /\
  stringify_tree cyclicGraph noReplacer (VRef 0%nat) =
    Some (Throw cyclicError).
Proof. repeat split; vm_compute; reflexivity. Qed.

(** No cycle in [sharedGraph], and still the second reference to the
    shared object is dropped; without the replacer both are there. *)
Example stringify_sharedGraph :
  stringify_tree sharedGraph removeCircularReferences (VRef 0%nat) =
    Some (Return (Some (JsObject [("first", JsObject [("n", JsNum 1)])]))) /\
  stringify_tree sharedGraph noReplacer (VRef 0%nat) =
    Some (Return (Some (JsObject [("first", JsObject [("n", JsNum 1)]);
                                  ("second", JsObject [("n", JsNum 1)])]))).
Proof. split; vm_compute; reflexivity. Qed.

(** C6 as stated fails on arrays.  In [arrayGraph] the array [items]
    holds the root (a cyclic edge), then an object, then that object
    again.  The two repeated references are not absent from the
    serialization: the array still has three elements, two of them
    null, where the claim has the array [[{n: 1}]]. *)
Lemma stringify_array_reference_is_null :
  heap_closed arrayGraph /\
  stringify_tree arrayGraph removeCircularReferences (VRef 0%nat) =
    Some (Return (Some (JsObject
      [("items", JsArray [JsNull; JsObject [("n", JsNum 1)]; JsNull])]))) /\
  stringify_tree arrayGraph removeCircularReferences (VRef 0%nat) <>
    Some (Return (Some (JsObject
      [("items", JsArray [JsObject [("n", JsNum 1)]])]))).
Proof.
  split; [| split; [vm_compute; reflexivity | vm_compute; discriminate]].
  intros l o Hl. unfold arrayGraph in Hl.
  repeat (apply lookup_insert_Some in Hl as [[<- <-] | [_ Hl]];
          [repeat constructor; on_heap |]).
  apply lookup_singleton_Some in Hl as [<- <-]. repeat constructor.
Qed.

End StringifyClaims.

(** ** Routines and routes *)

Section RoutineFacts.

Import JsonStringify Service.
Local Open Scope js_scope.

Lemma new_events_app st st' evs :
  trace st' = (trace st ++ evs)%list -> new_events st st' = evs.
Proof. intros E. unfold new_events. rewrite E. apply drop_app_length. Qed.

Section Emits.

Variable P : event -> Prop.

Lemma emits_ret {A} (a : A) : emits P (ret a).
Proof. intros st. exists []. by rewrite app_nil_r. Qed.

Lemma emits_throw {A} e : emits P (@throw A e).
Proof. intros st. exists []. by rewrite app_nil_r. Qed.

Lemma emits_lift {A} (c : completion A) : emits P (lift c).
Proof. intros st. exists []. by rewrite app_nil_r. Qed.

Lemma emits_lift_partial {A} (c : option (completion A)) :
  emits P (lift_partial c).
Proof. intros st. exists []. by rewrite app_nil_r. Qed.

Lemma emits_getItem k : emits P (getItem k).
Proof. intros st. exists []. by rewrite app_nil_r. Qed.

Lemma emits_setItem k v : emits P (setItem k v).
Proof. intros st. exists []. by rewrite app_nil_r. Qed.

Lemma emits_emit ev : P ev -> emits P (emit ev).
Proof. intros Hev st. exists [ev]. split; [done | by constructor]. Qed.

Lemma emits_bind {A B} (m : M A) (f : A -> M B) :
  emits P m -> (forall a, emits P (f a)) -> emits P (bind m f).
Proof.
  intros Hm Hf st. destruct (Hm st) as (evs1 & E1 & F1).
  unfold bind. destruct (m st) as [st1 [[a | e] |]]; simpl in *; eauto.
  destruct (Hf a st1) as (evs2 & E2 & F2).
  exists (evs1 ++ evs2)%list. rewrite E2, E1, app_assoc.
  split; [done | by apply Forall_app].
Qed.

Lemma emits_try_catch {A} (m : M A) (handler : jsval -> M A) :
  emits P m -> (forall e, emits P (handler e)) -> emits P (try_catch m handler).
Proof.
  intros Hm Hh st. destruct (Hm st) as (evs1 & E1 & F1).
  unfold try_catch. destruct (m st) as [st1 [[a | e] |]]; simpl in *; eauto.
  destruct (Hh e st1) as (evs2 & E2 & F2).
  exists (evs1 ++ evs2)%list. rewrite E2, E1, app_assoc.
  split; [done | by apply Forall_app].
Qed.

End Emits.

Lemma keeps_ret {A} (a : A) : keeps_store (ret a).
Proof. done. Qed.

Lemma keeps_lift {A} (c : completion A) : keeps_store (lift c).
Proof. done. Qed.

Lemma keeps_getItem k : keeps_store (getItem k).
Proof. done. Qed.

Lemma keeps_emit ev : keeps_store (emit ev).
Proof. done. Qed.

Lemma keeps_bind {A B} (m : M A) (f : A -> M B) :
  keeps_store m -> (forall a, keeps_store (f a)) -> keeps_store (bind m f).
Proof.
  intros Hm Hf st. specialize (Hm st). unfold bind.
  destruct (m st) as [st1 [[a | e] |]]; simpl in *; try done.
  by rewrite Hf.
Qed.

Lemma keeps_try_catch {A} (m : M A) (handler : jsval -> M A) :
  keeps_store m -> (forall e, keeps_store (handler e)) ->
  keeps_store (try_catch m handler).
Proof.
  intros Hm Hh st. specialize (Hm st). unfold try_catch.
  destruct (m st) as [st1 [[a | e] |]]; simpl in *; try done.
  by rewrite Hh.
Qed.

(** Routines are sequences of these steps: the two properties follow
    the structure of the routine. *)
Local Ltac routine_step :=
  first
    [ apply emits_bind; [| intros ?]
    | apply emits_try_catch; [| intros ?]
    | apply emits_ret | apply emits_throw | apply emits_lift
    | apply emits_lift_partial
    | apply emits_getItem | apply emits_setItem
    | apply emits_emit
    | apply keeps_bind; [| intros ?]
    | apply keeps_try_catch; [| intros ?]
    | apply keeps_ret | apply keeps_lift | apply keeps_getItem
    | apply keeps_emit
    | match goal with
      | |- emits _ (match ?x with _ => _ end) => destruct x
      | |- keeps_store (match ?x with _ => _ end) => destruct x
      end ].

Local Ltac routine := repeat routine_step.

Variable w : World.

Lemma initialize_resumed_emits : emits console_only (initialize_resumed w).
Proof.
  unfold initialize_resumed, stringify_bearer, console_log, console_error.
  routine; exact I.
Qed.

Lemma initialize_body_emits :
  exists body, initialize w = invoke "initialize" body /\ emits console_only body.
Proof.
  eexists. split; [reflexivity |]. apply initialize_resumed_emits.
Qed.

Lemma issueAndSignCredential_emits custDid :
  emits (of_routine "issueAndSignCredential") (issueAndSignCredential w custDid).
Proof.
  unfold issueAndSignCredential, issueAndSignCredential_try, invoke,
    console_log, console_error.
  routine; try (by left); by right.
Qed.

Lemma issueAndSignCredential_keeps custDid :
  keeps_store (issueAndSignCredential w custDid).
Proof.
  unfold issueAndSignCredential, issueAndSignCredential_try, invoke,
    console_log, console_error.
  routine.
Qed.

Lemma invocations_app fn evs1 evs2 :
  invocations fn (evs1 ++ evs2) =
  (invocations fn evs1 + invocations fn evs2)%nat.
Proof.
  induction evs1 as [| ev evs1 IH]; [done |].
  destruct ev; simpl; try done. destruct (String.eqb fn0 fn); simpl; lia.
Qed.

Lemma invocations_none fn (P : event -> Prop) evs :
  (forall ev, P ev -> ev <> Invoke fn) -> Forall P evs ->
  invocations fn evs = 0%nat.
Proof.
  intros HP. induction 1 as [| ev evs Hev _ IH]; [done |].
  destruct ev; simpl; try done.
  destruct (String.eqb_spec fn0 fn) as [-> | _]; [| done].
  by destruct (HP _ Hev).
Qed.

Lemma response_none (P : event -> Prop) evs :
  (forall ev, P ev -> match ev with ResSend _ _ | ResJson _ _ => False | _ => True end) ->
  Forall P evs -> response evs = None.
Proof.
  intros HP. induction 1 as [| ev evs Hev _ IH]; [done |].
  apply HP in Hev. destruct ev; simpl; done.
Qed.

Lemma emits_weaken (P Q : event -> Prop) {A} (m : M A) :
  (forall ev, P ev -> Q ev) -> emits P m -> emits Q m.
Proof.
  intros HPQ Hm st. destruct (Hm st) as (evs & E & F).
  exists evs. split; [done |]. eapply Forall_impl; eauto.
Qed.

(** A run of [getPermission]: entered once, only console output
    after that, store untouched, and the promise resolves. *)
Lemma getPermission_run st :
  exists evs data,
    getPermission w st =
      ({| store := store st;
          trace := (trace st ++ Invoke "getPermission" :: evs)%list |},
       Some (Return data)) /\
    Forall console_only evs.
Proof.
  unfold getPermission, invoke, try_catch, bind, emit, getItem, lift,
    console_log, console_error, emit, ret. simpl.
  destruct (fetch w _) as [response | e]; simpl.
  - destruct (method_call response "json" _) as [data | e]; simpl;
      eexists _, _; rewrite <- !app_assoc; simpl;
      (split; [reflexivity | by repeat constructor]).
  - eexists _, _. rewrite <- !app_assoc. simpl.
    split; [reflexivity | by repeat constructor].
Qed.

(** The permission step of [/get-credential]. *)
Lemma ensure_permission_flagged st :
  store st !! "permission" = Some "true" ->
  ensure_permission w st = (st, Some (Return tt)).
Proof.
  intros Hp. unfold ensure_permission, bind, getItem, is_not_true. simpl.
  rewrite Hp. by rewrite bool_decide_eq_true_2.
Qed.

Lemma ensure_permission_unflagged st :
  store st !! "permission" <> Some "true" ->
  exists evs,
    ensure_permission w st =
      ({| store := <["permission" := "true"]> (store st);
          trace := (trace st ++ Invoke "getPermission" :: evs)%list |},
       Some (Return tt)) /\
    Forall console_only evs.
Proof.
  intros Hp. unfold ensure_permission, bind, getItem, is_not_true. simpl.
  rewrite bool_decide_eq_false_2 by done. simpl.
  destruct (getPermission_run st) as (evs & data & E & F).
  rewrite E. simpl. by exists evs.
Qed.

Lemma respond_credential_emits data :
  emits (fun ev => forall fn, ev <> Invoke fn) (respond_credential data).
Proof. unfold respond_credential, res_json. routine. done. Qed.

Lemma respond_credential_keeps data : keeps_store (respond_credential data).
Proof. unfold respond_credential, res_json. routine. Qed.

(** The rest of [/get-credential], after the permission step, does
    not enter [getPermission] and leaves the store as it is. *)
Lemma issue_and_respond_emits custDid :
  emits (fun ev => ev <> Invoke "getPermission")
    (data <- issueAndSignCredential w custDid ;; respond_credential data).
Proof.
  apply emits_bind.
  - eapply emits_weaken; [| apply issueAndSignCredential_emits].
    intros ev [-> | Hev]; [done | by destruct ev].
  - intros data. eapply emits_weaken; [| apply respond_credential_emits].
    intros ev Hev. apply Hev.
Qed.

Lemma issue_and_respond_keeps custDid :
  keeps_store
    (data <- issueAndSignCredential w custDid ;; respond_credential data).
Proof.
  apply keeps_bind; [apply issueAndSignCredential_keeps |].
  intros data. apply respond_credential_keeps.
Qed.

(** A run of [getRecord]: the [try] block always throws, and the
    function returns what was thrown. *)
Lemma getRecord_try_throws custDid st :
  exists e,
    getRecord_try w custDid st = (st, Some (Throw e)) /\
    ((exists did records,
        Web5_connect w None = Return did /\
        records_query w (queryRequest custDid (store st !! "didURI")) =
          Return records /\
        e = ReferenceError "record is not defined") \/
     Web5_connect w None = Throw e \/
     records_query w (queryRequest custDid (store st !! "didURI")) = Throw e).
Proof.
  unfold getRecord_try, bind, lift, getItem. simpl.
  destruct (Web5_connect w None) as [did | e]; simpl; [| by eauto].
  destruct (records_query w _) as [records | e]; simpl; [| by eauto].
  eexists. split; [reflexivity |]. left. eauto.
Qed.

Lemma getRecord_run custDid st :
  exists e,
    getRecord_try w custDid
      {| store := store st; trace := (trace st ++ [Invoke "getRecord"])%list |} =
      ({| store := store st; trace := (trace st ++ [Invoke "getRecord"])%list |},
       Some (Throw e)) /\
    getRecord w custDid st =
      ({| store := store st; trace := (trace st ++ [Invoke "getRecord"])%list |},
       Some (Return e)).
Proof.
  destruct (getRecord_try_throws custDid
    {| store := store st; trace := (trace st ++ [Invoke "getRecord"])%list |})
    as (e & E & _).
  exists e. split; [done |].
  unfold getRecord, invoke, try_catch, bind, emit. simpl. by rewrite E.
Qed.

(** On a closed graph the serialization of the bearer identity in
    [initialize] returns a text. *)
Lemma stringify_bearer_returns (d : BearerDid) st :
  heap_closed (graph d) -> value_closed (graph d) (root d) ->
  exists text, stringify_bearer d st = (st, Some (Return text)).
Proof.
  intros Hh Hv.
  destruct (stringify_tree_walk (graph d) (root d) Hh Hv)
    as (seen' & o & E & _).
  unfold stringify_bearer, bind, lift_partial, JSON_stringify.
  rewrite E. simpl. eauto.
Qed.

End RoutineFacts.

Section ServiceClaims.

Import Service.
Local Open Scope js_scope.



(** How often the callback of [app.listen] enters [initialize]. *)
Lemma on_listen_invocations (w : World) (st : state) :
  invocations "initialize" (new_events st (on_listen w st).1) =
  if bool_decide (store st !! "registered" = Some "true") then 0%nat
  else 1%nat.
Proof.
  unfold on_listen, bind, getItem, is_not_true. simpl.
  case_bool_decide as Hreg; simpl.
  - unfold console_log, emit, ret. simpl.
    erewrite new_events_app; [| simpl; rewrite <- !app_assoc; reflexivity].
    reflexivity.
  - unfold console_log, emit. simpl.
    destruct (initialize_resumed_emits w
                {| store := store st;
                   trace := ((trace st ++ [Invoke "initialize"]) ++
                             [ConsoleLog [JStr ("Server is running on port "
                                                +:+ PORT w)]])%list |})
      as (evs & E & F).
    simpl in E.
    erewrite new_events_app;
      [| rewrite E, <- !app_assoc; simpl; reflexivity].
    simpl.
    apply (f_equal S).
    apply (invocations_none "initialize" console_only); [by intros [] Hev |].
    exact F.
Qed.

(** C7.  At process start the callback of [app.listen] enters
    [initialize] if and only if the [registered] key of the store
    does not hold ["true"], and then exactly once: once on a first
    start with an empty store, not at all on a restart with
    [registered] at ["true"]. *)
Theorem on_listen_initialize_iff_unregistered (w : World) (st : state) :
  (invocations "initialize" (new_events st (on_listen w st).1) = 1%nat <->
   store st !! "registered" <> Some "true") /\
  (invocations "initialize" (new_events st (on_listen w st).1) = 0%nat <->
   store st !! "registered" = Some "true") /\
  invocations "initialize"
    (new_events first_start (on_listen w first_start).1) = 1%nat /\
  invocations "initialize" (new_events restart (on_listen w restart).1) = 0%nat.
Proof.
  rewrite !on_listen_invocations.
  repeat split; try case_bool_decide; try done.
Qed.

(** C3.  After [POST /get-permission] the [permission] key holds
    ["true"], whatever the gateway answered and also when the call to
    it failed.  On [POST /get-credential], when the key does not hold
    ["true"], [getPermission] is entered once and the key holds
    ["true"] afterwards, whatever the answer; once it holds ["true"]
    the gateway is not asked again. *)
Theorem permission_flag_set_unconditionally
    (w : World) (req : Request) (st : state) :
  (store (post_get_permission w req st).1 !! "permission" = Some "true" /\
   (post_get_permission w req st).2 = Some (Return tt)) /\
  (store st !! "permission" <> Some "true" ->
   invocations "getPermission"
     (new_events st (post_get_credential w req st).1) = 1%nat /\
   store (post_get_credential w req st).1 !! "permission" = Some "true") /\
  (store st !! "permission" = Some "true" ->
   invocations "getPermission"
     (new_events st (post_get_credential w req st).1) = 0%nat /\
   store (post_get_credential w req st).1 !! "permission" = Some "true").
Proof.
  split; [| split].
  - unfold post_get_permission, bind.
    destruct (getPermission_run w st) as (evs & data & -> & _). simpl.
    split; [apply lookup_insert_eq | reflexivity].
  - intros Hp.
    destruct (ensure_permission_unflagged w st Hp) as (evs & Eperm & F).
    set (st1 := {| store := <["permission" := "true"]> (store st);
                   trace := (trace st ++ Invoke "getPermission" :: evs)%list |})
      in Eperm.
    assert (Epost : post_get_credential w req st =
              (data <- issueAndSignCredential w (body_custDid req) ;;
               respond_credential data) st1).
    { unfold post_get_credential, bind at 1. by rewrite Eperm. }
    rewrite Epost.
    destruct (issue_and_respond_emits w (body_custDid req) st1)
      as (evs' & E & F').
    rewrite (issue_and_respond_keeps w (body_custDid req) st1).
    split; [| apply lookup_insert_eq].
    erewrite new_events_app;
      [| rewrite E; unfold st1; simpl; rewrite <- app_assoc; reflexivity].
    simpl. rewrite invocations_app.
    rewrite (invocations_none "getPermission" console_only evs);
      [| by intros [] Hev | done].
    by rewrite (invocations_none "getPermission" _ evs' (fun ev Hev => Hev)).
  - intros Hp.
    assert (Epost : post_get_credential w req st =
              (data <- issueAndSignCredential w (body_custDid req) ;;
               respond_credential data) st).
    { unfold post_get_credential, bind at 1.
      by rewrite (ensure_permission_flagged w st Hp). }
    rewrite Epost.
    destruct (issue_and_respond_emits w (body_custDid req) st)
      as (evs' & E & F').
    rewrite (issue_and_respond_keeps w (body_custDid req) st).
    split; [| done].
    rewrite (new_events_app _ _ _ E).
    by rewrite (invocations_none "getPermission" _ evs' (fun ev Hev => Hev)).
Qed.

Lemma permission_flag_set_unconditionally_witness :
  (invocations "getPermission"
     (new_events first_start
        (post_get_credential happyWorld sampleRequest first_start).1) = 1%nat /\
   store (post_get_credential happyWorld sampleRequest first_start).1
     !! "permission" = Some "true") /\
  (invocations "getPermission"
     (new_events (post_get_permission happyWorld sampleRequest first_start).1
        (post_get_credential happyWorld sampleRequest
           (post_get_permission happyWorld sampleRequest first_start).1).1) =
     0%nat /\
   store (post_get_credential happyWorld sampleRequest
            (post_get_permission happyWorld sampleRequest first_start).1).1
     !! "permission" = Some "true").
Proof.
  split.
  - apply (permission_flag_set_unconditionally happyWorld sampleRequest
             first_start).
    vm_compute. discriminate.
  - apply (permission_flag_set_unconditionally happyWorld sampleRequest
             (post_get_permission happyWorld sampleRequest first_start).1).
    vm_compute. reflexivity.
Defined.

(** The gateway of [happyWorld] answers with a denial: the answer is
    forwarded and the flag is set all the same. *)
Example get_permission_denied :
  response (new_events first_start
              (post_get_permission happyWorld sampleRequest first_start).1) =
    Some (200, JObj [("approved", JBool false); ("error", JStr "denied")]) /\
  store (post_get_permission happyWorld sampleRequest first_start).1
    !! "permission" = Some "true".
Proof. split; vm_compute; reflexivity. Qed.

(** C8.  [POST /] answers with exactly what [getRecord] returned,
    under the status code 200 that the response starts with, and
    [getRecord] returns what its [try] block threw: the raw error of
    the SDK when the connection or the query fails. *)
Theorem post_root_forwards_getRecord
    (w : World) (req : Request) (st : state) :
  exists v st1,
    getRecord w (body_custDid req) st = (st1, Some (Return v)) /\
    post_root w req st =
      ({| store := store st1; trace := (trace st1 ++ [ResSend 200 v])%list |},
       Some (Return tt)) /\
    response (new_events st (post_root w req st).1) = Some (200, v) /\
    (forall e, Web5_connect w None = Throw e -> v = e) /\
    (forall did e,
       Web5_connect w None = Return did ->
       records_query w (queryRequest (body_custDid req) (store st !! "didURI")) =
         Throw e ->
       v = e).
Proof.
  set (st0 := {| store := store st;
                 trace := (trace st ++ [Invoke "getRecord"])%list |}).
  destruct (getRecord_run w (body_custDid req) st) as (v & Etry & Erun).
  fold st0 in Etry, Erun.
  exists v, st0. split; [done |].
  assert (Epost : post_root w req st =
            ({| store := store st0;
                trace := (trace st0 ++ [ResSend 200 v])%list |},
             Some (Return tt))).
  { unfold post_root, bind. rewrite Erun. reflexivity. }
  split; [done |]. split.
  { rewrite Epost. simpl.
    erewrite new_events_app; [| simpl; rewrite <- app_assoc; reflexivity].
    reflexivity. }
  destruct (getRecord_try_throws w (body_custDid req) st0)
    as (e & Etry' & Hcases).
  rewrite Etry in Etry'. injection Etry' as <-.
  split.
  - intros e Hconnect.
    destruct Hcases as [(did & records & Hc & _) | [Hc | Hq]]; [congruence | congruence |].
    revert Hq. unfold getRecord_try in Etry. revert Etry.
    unfold bind, lift. rewrite Hconnect. simpl. congruence.
  - intros did e Hconnect Hquery. simpl in Hcases.
    destruct Hcases as [(did' & records & _ & Hq & _) | [Hc | Hq]]; congruence.
Qed.

Lemma post_root_forwards_getRecord_witness :
  exists v st1,
    getRecord offlineWorld (body_custDid sampleRequest) first_start =
      (st1, Some (Return v)) /\
    response (new_events first_start
                (post_root offlineWorld sampleRequest first_start).1) =
      Some (200, v) /\
    v = networkError.
Proof.
  destruct (post_root_forwards_getRecord offlineWorld sampleRequest first_start)
    as (v & st1 & Erun & _ & Eresp & Hconnect & _).
  exists v, st1. split; [exact Erun |]. split; [exact Eresp |].
  apply Hconnect. reflexivity.
Defined.

(** C9.  When the query succeeds, the [return] of [getRecord] reads
    the identifier [record], which is bound nowhere: a ReferenceError,
    which the [catch] returns.  In every call the [try] block throws
    and the function returns what was thrown, the ReferenceError or
    the error of the SDK; it never returns the object with [record]
    and [content]. *)
Theorem getRecord_returns_caught_error
    (w : World) (custDid : jsval) (st : state) :
  (forall did records,
     Web5_connect w None = Return did ->
     records_query w (queryRequest custDid (store st !! "didURI")) =
       Return records ->
     (getRecord w custDid st).2 =
       Some (Return (ReferenceError "record is not defined"))) /\
  (exists e,
     (getRecord_try w custDid
        {| store := store st;
           trace := (trace st ++ [Invoke "getRecord"])%list |}).2 =
       Some (Throw e) /\
     (getRecord w custDid st).2 = Some (Return e) /\
     (e = ReferenceError "record is not defined" \/
      Web5_connect w None = Throw e \/
      records_query w (queryRequest custDid (store st !! "didURI")) = Throw e)).
Proof.
  set (st0 := {| store := store st;
                 trace := (trace st ++ [Invoke "getRecord"])%list |}).
  destruct (getRecord_run w custDid st) as (v & Etry & Erun).
  fold st0 in Etry, Erun.
  destruct (getRecord_try_throws w custDid st0) as (e & Etry' & Hcases).
  rewrite Etry in Etry'. injection Etry' as <-. simpl in Hcases.
  split.
  - intros did records Hconnect Hquery. rewrite Erun. simpl.
    destruct Hcases as [(_ & _ & _ & _ & ->) | [Hc | Hq]]; congruence.
  - exists v. rewrite Etry, Erun. simpl. repeat split.
    destruct Hcases as [(_ & _ & _ & _ & ->) | [Hc | Hq]]; auto.
Qed.

Lemma getRecord_returns_caught_error_witness :
  (getRecord happyWorld (JStr "did:dht:customer") first_start).2 =
    Some (Return (ReferenceError "record is not defined")).
Proof.
  apply (getRecord_returns_caught_error happyWorld (JStr "did:dht:customer")
           first_start) with (did := "did:dht:issuer")
           (records := [JHandle 5; JHandle 7]); reflexivity.
Defined.

(** C2, on the code.  With a query that succeeds and returns two
    records, [getRecord] does not return the object whose [record] is
    the last of them: it returns the ReferenceError raised by the
    identifier [record]. *)
Example getRecord_query_succeeds_run :
  records_query happyWorld
    (queryRequest (JStr "did:dht:customer") None) =
    Return [JHandle 5; JHandle 7] /\
  (getRecord happyWorld (JStr "did:dht:customer") first_start).2 =
    Some (Return (JErr "ReferenceError" "record is not defined")) /\
  (forall content,
     (getRecord happyWorld (JStr "did:dht:customer") first_start).2 <>
       Some (Return (JObj [("record", JHandle 7); ("content", content)]))).
Proof.
  split; [reflexivity |]. split; [vm_compute; reflexivity |].
  intros content. vm_compute. discriminate.
Qed.

(** The permission step of [/get-credential] always completes. *)
Lemma ensure_permission_completes (w : World) (st : state) :
  (ensure_permission w st).2 = Some (Return tt) /\
  exists evs,
    trace (ensure_permission w st).1 = (trace st ++ evs)%list /\
    Forall (of_routine "getPermission") evs.
Proof.
  destruct (decide (store st !! "permission" = Some "true")) as [Hp | Hp].
  - rewrite (ensure_permission_flagged w st Hp). split; [done |].
    exists []. by rewrite app_nil_r.
  - destruct (ensure_permission_unflagged w st Hp) as (evs & -> & F).
    split; [done |]. eexists. split; [reflexivity |].
    constructor; [by left |]. eapply Forall_impl; [exact F |].
    intros ev Hev. by right.
Qed.

(** [issueAndSignCredential] resolves to undefined exactly when its
    [try] block throws. *)
Lemma issueAndSignCredential_undefined_iff
    (w : World) (custDid : jsval) (st : state) :
  (issueAndSignCredential w custDid st).2 = Some (Return JUndefined) <->
  exists e,
    (issueAndSignCredential_try w custDid
       {| store := store st;
          trace := (trace st ++ [Invoke "issueAndSignCredential"])%list |}).2 =
      Some (Throw e).
Proof.
  unfold issueAndSignCredential, invoke, try_catch.
  unfold bind at 1. unfold emit at 1. simpl.
  set (st0 := {| store := store st; trace := _ |}).
  assert (Hshape : forall st1 v,
            issueAndSignCredential_try w custDid st0 = (st1, Some (Return v)) ->
            v <> JUndefined).
  { unfold issueAndSignCredential_try, bind, lift, getItem, console_log,
      emit, ret. simpl. intros st1 v.
    repeat match goal with
    | |- context [match ?x with _ => _ end] =>
        match x with
        | context [match _ with _ => _ end] => fail 1
        | _ => destruct x; simpl
        end
    end; intros [= _ <-] || intros [=]; done. }
  destruct (issueAndSignCredential_try w custDid st0)
    as [st1 [[v | e] |]] eqn:E; simpl.
  - split; [intros [= ->]; by destruct (Hshape st1 JUndefined) |].
    intros [e [=]].
  - split; [by eauto |]. intros _.
    unfold bind, console_error, emit, ret. reflexivity.
  - split; [intros [=] | intros [e [=]]].
Qed.

(** C10.  When [issueAndSignCredential] takes its exception path and
    resolves to undefined, the handler of [POST /get-credential]
    throws a TypeError on reading [data.status]: its promise is
    rejected and no response has been sent, so the fallback to empty
    strings is not reached. *)
Theorem post_get_credential_rejects_on_failure
    (w : World) (req : Request) (st st2 : state) :
  issueAndSignCredential w (body_custDid req) (ensure_permission w st).1 =
    (st2, Some (Return JUndefined)) ->
  post_get_credential w req st =
    (st2, Some (Throw (TypeError
       "Cannot read properties of undefined (reading 'status')"))) /\
  response (new_events st st2) = None.
Proof.
  intros Hissue.
  destruct (ensure_permission_completes w st) as (Hp & evs & E & F).
  destruct (issueAndSignCredential_emits w (body_custDid req)
              (ensure_permission w st).1) as (evs' & E' & F').
  rewrite Hissue in E'. simpl in E'.
  split.
  - unfold post_get_credential, bind at 1.
    destruct (ensure_permission w st) as [st1 r]. simpl in *. subst r.
    unfold bind. rewrite Hissue. reflexivity.
  - erewrite new_events_app; [| rewrite E', E, <- app_assoc; reflexivity].
    apply (response_none (fun ev => of_routine "getPermission" ev \/
                                    of_routine "issueAndSignCredential" ev)).
    + intros ev [[-> | Hev] | [-> | Hev]]; try done; by destruct ev.
    + apply Forall_app. split; eapply Forall_impl; eauto; simpl; auto.
Qed.

Lemma post_get_credential_rejects_on_failure_witness :
  post_get_credential offlineWorld sampleRequest first_start =
    ((issueAndSignCredential offlineWorld (body_custDid sampleRequest)
        (ensure_permission offlineWorld first_start).1).1,
     Some (Throw (TypeError
       "Cannot read properties of undefined (reading 'status')"))) /\
  response (new_events first_start
    (issueAndSignCredential offlineWorld (body_custDid sampleRequest)
       (ensure_permission offlineWorld first_start).1).1) = None.
Proof.
  apply (post_get_credential_rejects_on_failure offlineWorld sampleRequest
           first_start).
  vm_compute. reflexivity.
Defined.

(** C1, on the code.  With the SDK unreachable, the handler of
    [POST /get-credential] sends no response at all, neither the
    object of empty strings under the status 200 nor any other: it
    ends in the TypeError of reading [status] of undefined. *)
Example post_get_credential_offline_run :
  (issueAndSignCredential offlineWorld (body_custDid sampleRequest)
     first_start).2 = Some (Return JUndefined) /\
  (post_get_credential offlineWorld sampleRequest first_start).2 =
    Some (Throw (JErr "TypeError"
      "Cannot read properties of undefined (reading 'status')")) /\
  response (new_events first_start
              (post_get_credential offlineWorld sampleRequest first_start).1) =
    None /\
  response (new_events first_start
              (post_get_credential offlineWorld sampleRequest first_start).1) <>
    Some (200, JObj [ ("status", JStr ""); ("record", JStr "");
                      ("id", JStr ""); ("KCC", JStr "") ]).
Proof. repeat split; vm_compute; (reflexivity || discriminate). Qed.

(** The fallback of line 234 as written does work field by field:
    when the result is an object, a missing or null field is
    answered with the empty string. *)
Example respond_credential_missing_fields (st : state) :
  respond_credential (JObj [("status", JNum 202); ("id", JNull)]) st =
    ({| store := store st;
        trace := (trace st ++
          [ResJson 200 (JObj [ ("status", JNum 202); ("record", JStr "");
                               ("id", JStr ""); ("KCC", JStr "") ])])%list |},
     Some (Return tt)).
Proof. reflexivity. Qed.

End ServiceClaims.

(** * Further properties of the code *)

(** ** Expiration dates *)

Section ExpirationFacts.

Import JsDate.

(** Leaving the argument out is passing 30. *)
Lemma getExpirationDate_default_days (tz : Z -> bool -> Z) (now : Z)
    (days : option Z) :
  getExpirationDate tz now days =
  getExpirationDate tz now (Some (default 30 days)).
Proof. destruct days; unfold getExpirationDate; cbn [default]; reflexivity. Qed.

(** X1.  [getExpirationDate(days)], for any number of days and on any
    host: the result is the timestamp, in UTC, of the local time that
    has the invocation's time of day on the day numbered [days] later
    (earlier, when [days] is negative), [days] being 30 when the
    argument is left out. *)
Theorem getExpirationDate_days_calendar
    (tz : Z -> bool -> Z) (now : Z) (days : option Z) :
  let n := default 30 days in
  let target := LocalTime tz now + n * msPerDay in
  Z.abs (UTC tz target) <= maxTime ->
  getExpirationDate tz now days = Return (isoFormat (UTC tz target)) /\
  Day target = Day (LocalTime tz now) + n /\
  TimeWithinDay target = TimeWithinDay (LocalTime tz now).
Proof.
  intros n target Hrange. split.
  - rewrite getExpirationDate_default_days, getExpirationDate_unfold.
    fold n. fold target. unfold TimeClip, toISOString.
    destruct (Z.ltb_spec maxTime (Z.abs (UTC tz target))); [lia | reflexivity].
  - unfold target. split.
    + exact (Day_shift (LocalTime tz now) n).
    + exact (TimeWithinDay_shift (LocalTime tz now) n).
Qed.

Lemma getExpirationDate_days_calendar_witness :
  getExpirationDate dstZone 1710003600000 None =
    Return (isoFormat (UTC dstZone
      (LocalTime dstZone 1710003600000 + default 30 None * msPerDay))) /\
  Day (LocalTime dstZone 1710003600000 + default 30 None * msPerDay) =
    Day (LocalTime dstZone 1710003600000) + default 30 None /\
  TimeWithinDay (LocalTime dstZone 1710003600000 + default 30 None * msPerDay) =
    TimeWithinDay (LocalTime dstZone 1710003600000).
Proof.
  apply (getExpirationDate_days_calendar dstZone 1710003600000 None).
  vm_compute. discriminate.
Defined.

(** X2.  On a host whose offset from UTC never changes (a server on
    UTC), the expiration is the invocation time plus [days] times
    86400000 milliseconds, to the millisecond. *)
Theorem getExpirationDate_fixed_zone (offset now : Z) (days : option Z) :
  Z.abs (now + default 30 days * msPerDay) <= maxTime ->
  getExpirationDate (fun _ _ => offset) now days =
  Return (isoFormat (now + default 30 days * msPerDay)).
Proof.
  intros Hr. rewrite getExpirationDate_default_days.
  exact (getExpirationDate_fixed_offset offset now (default 30 days) Hr).
Qed.

Lemma getExpirationDate_fixed_zone_witness :
  getExpirationDate (fun _ _ => 10800000) 1709208000000 (Some 365) =
  Return (isoFormat (1709208000000 + default 30 (Some 365) * msPerDay)).
Proof.
  apply (getExpirationDate_fixed_zone 10800000 1709208000000 (Some 365)).
  vm_compute. discriminate.
Defined.

(** X3.  When the expiration falls outside the range of time values
    (more than 8640000000000000 milliseconds from the epoch), the date
    is invalid and [getExpirationDate] throws a RangeError instead of
    returning a timestamp. *)
Theorem getExpirationDate_range_error
    (tz : Z -> bool -> Z) (now : Z) (days : option Z) :
  maxTime < Z.abs (UTC tz (LocalTime tz now + default 30 days * msPerDay)) ->
  getExpirationDate tz now days = Throw (RangeError "Invalid time value").
Proof.
  intros Hrange.
  rewrite getExpirationDate_default_days, getExpirationDate_unfold.
  unfold TimeClip, toISOString.
  destruct (Z.ltb_spec maxTime
              (Z.abs (UTC tz (LocalTime tz now + default 30 days * msPerDay))));
    [reflexivity | lia].
Qed.

Lemma getExpirationDate_range_error_witness :
  getExpirationDate utcZone maxTime (Some 365) =
  Throw (RangeError "Invalid time value").
Proof.
  apply (getExpirationDate_range_error utcZone maxTime (Some 365)).
  vm_compute. reflexivity.
Defined.

Lemma length_append (s1 s2 : string) :
  String.length (s1 +:+ s2) = (String.length s1 + String.length s2)%nat.
Proof. induction s1 as [| c s1 IH]; simpl; [done | by rewrite IH]. Qed.

Lemma length_digits (w : nat) (n : Z) : String.length (digits w n) = w.
Proof.
  revert n. induction w as [| w IH]; intros n; simpl; [done |].
  rewrite length_append, IH. simpl. lia.
Qed.

(** X4.  A timestamp whose year has four digits (years 0 to 9999) is
    24 characters long, the form [YYYY-MM-DDTHH:mm:ss.sssZ]; outside
    these years it is 27 characters long, the year taking a sign and
    six digits. *)
Theorem isoFormat_length (t : Z) :
  String.length (isoFormat t) =
  if (0 <=? YearFromTime t) && (YearFromTime t <=? 9999) then 24%nat
  else 27%nat.
Proof.
  unfold isoFormat, isoYear.
  destruct ((0 <=? YearFromTime t) && (YearFromTime t <=? 9999));
    [| destruct (YearFromTime t <? 0)];
    repeat (rewrite !length_append || rewrite !length_digits || simpl);
    reflexivity.
Qed.

End ExpirationFacts.

(** ** The replacer and the serialization *)

Section ReplacerFacts.

Import JsonStringify.

Lemma replay_length (R : Replacer) (rs : rstate R) calls :
  length (replay R rs calls) = length calls.
Proof.
  revert rs. induction calls as [| [k v] calls IH]; intros rs; [done |].
  simpl. destruct (rcall R rs k v) as [rs' v']. simpl. by rewrite IH.
Qed.

Lemma replay_lookup_from (seen : gset loc) calls i k v :
  calls !! i = Some (k, v) ->
  replay removeCircularReferences seen calls !! i =
  Some (replaced (seen ∪ call_refs (take i calls)) v).
Proof.
  revert seen i. induction calls as [| [k' v'] calls IH]; intros seen i Hi.
  - by rewrite lookup_nil in Hi.
  - destruct i as [| i]; simpl in Hi.
    + injection Hi as -> ->. simpl.
      unfold call_refs. simpl. rewrite union_empty_r_L.
      destruct v as [| | | | | l]; simpl; try done.
      by destruct (decide (l ∈ seen)).
    + simpl. destruct v' as [| | | | | l']; simpl;
        try (rewrite (IH seen i Hi); do 2 f_equal;
             unfold call_refs; simpl; done).
      destruct (decide (l' ∈ seen)) as [Hin | Hnew]; simpl.
      * rewrite (IH seen i Hi). do 2 f_equal.
        unfold call_refs. simpl. set_solver.
      * rewrite (IH _ i Hi). do 2 f_equal.
        unfold call_refs. simpl. set_solver.
Qed.

Lemma elem_of_call_refs l calls : l ∈ call_refs calls <-> VRef l ∈ calls.*2.
Proof.
  unfold call_refs. rewrite elem_of_list_to_set, list_elem_of_omap.
  rewrite list_elem_of_fmap. split.
  - intros ([k v] & Hin & Hv). simpl in Hv. destruct v; try done.
    injection Hv as ->. by exists (k, VRef l).
  - intros ([k v] & Hv & Hin). simpl in Hv. subst v. by exists (k, VRef l).
Qed.

(** X5.  The replacer made by one call of [removeCircularReferences]
    returns every value it is given as it is, except a reference to
    an object that it was given before: that one it replaces by
    undefined.  So of the references to one object only the first
    goes through, and the numbers of calls and of results agree. *)
Theorem removeCircularReferences_first_occurrence
    (calls : list (string * value)) (i : nat) (k : string) (v : value) :
  calls !! i = Some (k, v) ->
  length (replay removeCircularReferences (rinit removeCircularReferences) calls) =
    length calls /\
  replay removeCircularReferences (rinit removeCircularReferences) calls !! i =
    Some (match v with
          | VRef l =>
              if decide (VRef l ∈ (take i calls).*2) then VUndefined else v
          | _ => v
          end).
Proof.
  intros Hi. split; [apply replay_length |].
  change (rinit removeCircularReferences) with (∅ : gset loc).
  rewrite (replay_lookup_from ∅ calls i k v Hi), union_empty_l_L.
  f_equal. destruct v as [| | | | | l]; simpl; try done.
  destruct (decide (l ∈ call_refs (take i calls))) as [Hin | Hnot];
    [rewrite decide_True | rewrite decide_False]; try done;
    by rewrite <- elem_of_call_refs.
Qed.

Lemma removeCircularReferences_first_occurrence_witness :
  length (replay removeCircularReferences (rinit removeCircularReferences)
            [("a", VRef 1%nat); ("b", VNum 7); ("c", VRef 1%nat)]) = 3%nat /\
  replay removeCircularReferences (rinit removeCircularReferences)
    [("a", VRef 1%nat); ("b", VNum 7); ("c", VRef 1%nat)] !! 2%nat =
    Some (if decide (VRef 1%nat ∈
                 (take 2 [("a", VRef 1%nat); ("b", VNum 7);
                          ("c", VRef 1%nat)]).*2)
          then VUndefined else VRef 1%nat).
Proof.
  apply (removeCircularReferences_first_occurrence
           [("a", VRef 1%nat); ("b", VNum 7); ("c", VRef 1%nat)] 2 "c"
           (VRef 1%nat)).
  reflexivity.
Defined.

End ReplacerFacts.

Section OutputSize.

Import JsonStringify.

Lemma Walk_nodes_mutual h :
  (forall seen v seen' o, Walk h seen v seen' o ->
     size seen' = (size seen + json_nodes_opt o)%nat /\
     seen' ⊆ seen ∪ dom h) /\
  (forall seen props seen' ms, WalkProps h seen props seen' ms ->
     size seen' =
       (size seen + sum_list (map (fun m => json_nodes (snd m)) ms))%nat /\
     seen' ⊆ seen ∪ dom h) /\
  (forall seen elems seen' js, WalkElems h seen elems seen' js ->
     size seen' = (size seen + sum_list (map json_nodes js))%nat /\
     seen' ⊆ seen ∪ dom h).
Proof.
  apply Walk_mutind; simpl.
  1-5: intros; split; [lia | set_solver].
  - intros seen l Hl. split; [lia | set_solver].
  - intros seen l props seen' ms Hl Ho Wp [Hsize Hsub]. split.
    + rewrite Hsize, size_union, size_singleton by set_solver. lia.
    + apply elem_of_dom_2 in Ho. set_solver.
  - intros seen l elems seen' js Hl Ho We [Hsize Hsub]. split.
    + rewrite Hsize, size_union, size_singleton by set_solver. lia.
    + apply elem_of_dom_2 in Ho. set_solver.
  - intros seen. split; [lia | set_solver].
  - intros seen k v seen1 j props seen2 ms W1 [Hs1 Hb1] W2 [Hs2 Hb2].
    simpl in Hs1. split; [lia | set_solver].
  - intros seen k v seen1 props seen2 ms W1 [Hs1 Hb1] W2 [Hs2 Hb2].
    simpl in Hs1. split; [lia | set_solver].
  - intros seen. split; [lia | set_solver].
  - intros seen v seen1 o elems seen2 js W1 [Hs1 Hb1] W2 [Hs2 Hb2].
    split; [| set_solver]. destruct o; simpl in *; lia.
Qed.

(** X6.  With [removeCircularReferences] no object is serialized
    twice: the text has at most as many object and array nodes as the
    graph has objects, however often they are shared. *)
Theorem stringify_nodes_bounded (h : heap) (v : value) :
  heap_closed h -> value_closed h v ->
  exists o,
    stringify_tree h removeCircularReferences v = Some (Return o) /\
    (json_nodes_opt o <= size h)%nat.
Proof.
  intros Hh Hv.
  destruct (stringify_tree_walk h v Hh Hv) as (seen' & o & E & W).
  exists o. split; [done |].
  destruct (Walk_nodes_mutual h) as (Hw & _ & _).
  destruct (Hw _ _ _ _ W) as [Hsize Hsub].
  rewrite size_empty in Hsize. simpl in Hsize. rewrite <- Hsize.
  rewrite <- (size_dom (h : gmap loc object)). apply subseteq_size. set_solver.
Qed.

Lemma stringify_nodes_bounded_witness :
  exists o,
    stringify_tree sharedGraph removeCircularReferences (VRef 0%nat) =
      Some (Return o) /\
    (json_nodes_opt o <= size sharedGraph)%nat.
Proof.
  apply (stringify_nodes_bounded sharedGraph (VRef 0%nat)).
  - intros l o Hl. unfold sharedGraph in Hl.
    apply lookup_insert_Some in Hl as [[<- <-] | [_ Hl]].
    + repeat constructor; simpl; eexists; vm_compute; reflexivity.
    + apply lookup_singleton_Some in Hl as [<- <-]. repeat constructor.
  - simpl. eexists. vm_compute. reflexivity.
Defined.

End OutputSize.

Section TreeFacts.

Import JsonStringify.

Variable h : heap.

Local Abbreviation Plain := (SerializeJSONProperty h noReplacer).

Lemma unseen_empty : unseen h ∅ = h.
Proof. unfold unseen. apply map_filter_id. intros l o _. set_solver. Qed.

Lemma unseen_refs_first (seen : gset loc) l o :
  l ∉ seen -> h !! l = Some o ->
  heap_refs (unseen h seen) ≡ₚ
  object_refs o ++ heap_refs (unseen h ({[l]} ∪ seen)).
Proof.
  intros Hl Ho.
  assert (Hdel : unseen h ({[l]} ∪ seen) = delete l (unseen h seen)).
  { unfold unseen. apply map_eq. intros x.
    destruct (decide (x = l)) as [-> | Hx].
    - rewrite lookup_delete_eq. apply map_lookup_filter_None. right.
      intros o' _. simpl. set_solver.
    - rewrite lookup_delete_ne by done.
      rewrite !map_lookup_filter. destruct (h !! x) as [o' |]; simpl; [| done].
      repeat case_guard; simpl in *; try done; set_solver. }
  assert (Hin : unseen h seen !! l = Some o).
  { unfold unseen. apply map_lookup_filter_Some. by split. }
  pose proof (map_to_list_delete (unseen h seen) l o Hin) as Hperm.
  unfold heap_refs. rewrite Hdel.
  etransitivity; [apply bind_Permutation; symmetry; exact Hperm |].
  reflexivity.
Qed.

Lemma fresh_perm seen refs refs' :
  refs ≡ₚ refs' -> fresh seen refs -> fresh seen refs'.
Proof.
  intros Hp [Hnd Hn]. split; [by rewrite <- Hp |].
  intros l Hl. apply Hn. by rewrite Hp.
Qed.

(** Entering an object that was not seen: what was fresh stays so. *)
Lemma fresh_first (seen : gset loc) l o frame :
  l ∉ seen -> h !! l = Some o ->
  fresh seen (value_refs (VRef l) ++ heap_refs (unseen h seen) ++ frame) ->
  fresh ({[l]} ∪ seen)
    (object_refs o ++ heap_refs (unseen h ({[l]} ∪ seen)) ++ frame).
Proof.
  intros Hl Ho Hfresh.
  assert (Hperm : value_refs (VRef l) ++ heap_refs (unseen h seen) ++ frame ≡ₚ
                  l :: object_refs o ++
                       heap_refs (unseen h ({[l]} ∪ seen)) ++ frame).
  { simpl. constructor. rewrite (unseen_refs_first seen l o Hl Ho).
    by rewrite <- app_assoc. }
  destruct (fresh_perm _ _ _ Hperm Hfresh) as [Hnd Hn].
  apply NoDup_cons in Hnd as [Hlnot Hnd].
  split; [done |]. intros x Hx.
  assert (x ∉ seen) by (apply Hn; by right).
  assert (x <> l) by (by intros ->). set_solver.
Qed.

Lemma Plain_primitive fuel stack key v :
  (forall l, v <> VRef l) ->
  Plain fuel stack tt key v =
  Some (Return (tt,
    match v with
    | VNull => Some JsNull
    | VBool b => Some (JsBool b)
    | VNum z => Some (JsNum z)
    | VStr s => Some (JsStr s)
    | _ => None
    end)).
Proof. intros Hv. destruct fuel, v; try reflexivity; by destruct (Hv l). Qed.

Lemma tree_walk_plain :
  (forall seen v seen' o, Walk h seen v seen' o ->
     forall frame fuel stack key,
       fresh seen (value_refs v ++ heap_refs (unseen h seen) ++ frame) ->
       (forall l, l ∈ stack -> l ∈ seen) ->
       (size (dom h ∖ seen) < fuel)%nat ->
       Plain fuel stack tt key v = Some (Return (tt, o)) /\
       fresh seen' (heap_refs (unseen h seen') ++ frame)) /\
  (forall seen props seen' ms, WalkProps h seen props seen' ms ->
     forall frame fuel stack,
       fresh seen ((props ≫= (fun kv => value_refs (snd kv))) ++
                   heap_refs (unseen h seen) ++ frame) ->
       (forall l, l ∈ stack -> l ∈ seen) ->
       (size (dom h ∖ seen) < fuel)%nat ->
       serialize_members noReplacer (Plain fuel stack) props tt =
         Some (Return (tt, ms)) /\
       fresh seen' (heap_refs (unseen h seen') ++ frame)) /\
  (forall seen elems seen' js, WalkElems h seen elems seen' js ->
     forall frame fuel stack i,
       fresh seen ((elems ≫= value_refs) ++
                   heap_refs (unseen h seen) ++ frame) ->
       (forall l, l ∈ stack -> l ∈ seen) ->
       (size (dom h ∖ seen) < fuel)%nat ->
       serialize_elements noReplacer (Plain fuel stack) i elems tt =
         Some (Return (tt, js)) /\
       fresh seen' (heap_refs (unseen h seen') ++ frame)).
Proof.
  apply Walk_mutind.
  1-5: intros; (split; [by rewrite Plain_primitive | done]).
  - (* a repeated reference cannot occur *)
    intros seen l Hl frame fuel stack key [_ Hfresh] _ _.
    exfalso. apply (Hfresh l); [left | done].
  - intros seen l props seen' ms Hl Ho Wp IH frame fuel stack key
      Hfresh Hstack Hfuel.
    assert (Hfresh' : fresh ({[l]} ∪ seen)
              ((props ≫= (fun kv => value_refs (snd kv))) ++
               heap_refs (unseen h ({[l]} ∪ seen)) ++ frame)).
    { apply (fresh_first seen l _ frame Hl Ho Hfresh). }
    destruct fuel as [| fuel].
    { rewrite (unseen_size_first h seen l) in Hfuel by eauto. lia. }
    destruct (IH frame fuel (l :: stack)) as [E Hout]; [done | | |].
    { intros x [-> | Hx]%elem_of_cons; [set_solver |].
      apply elem_of_union_r, Hstack, Hx. }
    { rewrite (unseen_size_first h seen l) in Hfuel by eauto. lia. }
    split; [| done].
    simpl. rewrite Ho. unfold SerializeJSONObject.
    rewrite decide_False by (intros Hin; apply Hl, Hstack, Hin).
    by rewrite E.
  - intros seen l elems seen' js Hl Ho We IH frame fuel stack key
      Hfresh Hstack Hfuel.
    assert (Hfresh' : fresh ({[l]} ∪ seen)
              ((elems ≫= value_refs) ++
               heap_refs (unseen h ({[l]} ∪ seen)) ++ frame)).
    { apply (fresh_first seen l _ frame Hl Ho Hfresh). }
    destruct fuel as [| fuel].
    { rewrite (unseen_size_first h seen l) in Hfuel by eauto. lia. }
    destruct (IH frame fuel (l :: stack) 0%nat) as [E Hout]; [done | | |].
    { intros x [-> | Hx]%elem_of_cons; [set_solver |].
      apply elem_of_union_r, Hstack, Hx. }
    { rewrite (unseen_size_first h seen l) in Hfuel by eauto. lia. }
    split; [| done].
    simpl. rewrite Ho. unfold SerializeJSONArray.
    rewrite decide_False by (intros Hin; apply Hl, Hstack, Hin).
    by rewrite E.
  - intros seen frame fuel stack Hfresh _ _. by split.
  - intros seen k v seen1 j props seen2 ms W1 IH1 W2 IH2 frame fuel stack
      Hfresh Hstack Hfuel.
    destruct (Walk_seen _ _ _ _ _ W1) as [Hsub _].
    destruct (IH1 ((props ≫= (fun kv => value_refs (snd kv))) ++ frame)%list
                fuel stack k) as [E1 Hf1]; [| done | done |].
    { eapply fresh_perm; [| exact Hfresh]. simpl.
      rewrite <- !app_assoc. apply Permutation_app_head.
      rewrite !app_assoc. apply Permutation_app_tail, Permutation_app_comm. }
    destruct (IH2 frame fuel stack) as [E2 Hf2].
    { eapply fresh_perm; [| exact Hf1].
      rewrite !app_assoc. apply Permutation_app_tail, Permutation_app_comm. }
    { intros x Hx. apply Hsub, Hstack, Hx. }
    { pose proof (unseen_size_mono h _ _ Hsub). lia. }
    split; [| done]. simpl. by rewrite E1, E2.
  - intros seen k v seen1 props seen2 ms W1 IH1 W2 IH2 frame fuel stack
      Hfresh Hstack Hfuel.
    destruct (Walk_seen _ _ _ _ _ W1) as [Hsub _].
    destruct (IH1 ((props ≫= (fun kv => value_refs (snd kv))) ++ frame)%list
                fuel stack k) as [E1 Hf1]; [| done | done |].
    { eapply fresh_perm; [| exact Hfresh]. simpl.
      rewrite <- !app_assoc. apply Permutation_app_head.
      rewrite !app_assoc. apply Permutation_app_tail, Permutation_app_comm. }
    destruct (IH2 frame fuel stack) as [E2 Hf2].
    { eapply fresh_perm; [| exact Hf1].
      rewrite !app_assoc. apply Permutation_app_tail, Permutation_app_comm. }
    { intros x Hx. apply Hsub, Hstack, Hx. }
    { pose proof (unseen_size_mono h _ _ Hsub). lia. }
    split; [| done]. simpl. by rewrite E1, E2.
  - intros seen frame fuel stack i Hfresh _ _. by split.
  - intros seen v seen1 o elems seen2 js W1 IH1 W2 IH2 frame fuel stack i
      Hfresh Hstack Hfuel.
    destruct (Walk_seen _ _ _ _ _ W1) as [Hsub _].
    destruct (IH1 ((elems ≫= value_refs) ++ frame)%list fuel stack (pretty i))
      as [E1 Hf1]; [| done | done |].
    { eapply fresh_perm; [| exact Hfresh]. simpl.
      rewrite <- !app_assoc. apply Permutation_app_head.
      rewrite !app_assoc. apply Permutation_app_tail, Permutation_app_comm. }
    destruct (IH2 frame fuel stack (S i)) as [E2 Hf2].
    { eapply fresh_perm; [| exact Hf1].
      rewrite !app_assoc. apply Permutation_app_tail, Permutation_app_comm. }
    { intros x Hx. apply Hsub, Hstack, Hx. }
    { pose proof (unseen_size_mono h _ _ Hsub). lia. }
    split; [| done]. simpl. by rewrite E1, E2.
Qed.

End TreeFacts.

Section TreeClaims.

Import JsonStringify.

(** X7.  On a graph in which no object is referred to twice, the
    replacer drops nothing: the serialization with
    [removeCircularReferences] is the one that [JSON.stringify]
    produces without a replacer. *)
Theorem stringify_tree_shaped_lossless (h : heap) (v : value) :
  heap_closed h -> value_closed h v -> tree_shaped h v ->
  exists o,
    stringify_tree h removeCircularReferences v = Some (Return o) /\
    stringify_tree h noReplacer v = Some (Return o).
Proof.
  intros Hh Hv Htree.
  destruct (stringify_tree_walk h v Hh Hv) as (seen' & o & E & W).
  exists o. split; [done |].
  destruct (tree_walk_plain h) as (Hw & _ & _).
  destruct (Hw _ _ _ _ W [] (S (size h)) [] "") as [Ep _].
  - rewrite unseen_empty, app_nil_r. split; [exact Htree |].
    intros l _. apply not_elem_of_empty.
  - intros l Hl. by apply elem_of_nil in Hl.
  - rewrite difference_empty_L, size_dom. lia.
  - unfold stringify_tree. change (rinit noReplacer) with tt. by rewrite Ep.
Qed.

Lemma stringify_tree_shaped_lossless_witness :
  exists o,
    stringify_tree treeGraph removeCircularReferences (VRef 0%nat) =
      Some (Return o) /\
    stringify_tree treeGraph noReplacer (VRef 0%nat) = Some (Return o).
Proof.
  apply (stringify_tree_shaped_lossless treeGraph (VRef 0%nat)).
  - intros l o Hl. unfold treeGraph in Hl.
    repeat (apply lookup_insert_Some in Hl as [[<- <-] | [_ Hl]];
            [repeat constructor; simpl; eexists; vm_compute; reflexivity |]).
    apply lookup_singleton_Some in Hl as [<- <-]. repeat constructor.
  - simpl. eexists. vm_compute. reflexivity.
  - unfold tree_shaped. vm_compute.
    repeat (constructor; [set_solver |]). constructor.
Defined.

End TreeClaims.

(** ** Bootstrap *)

Section BootstrapFacts.

Import JsonStringify Service.
Local Open Scope js_scope.

Local Ltac split_outcomes :=
  repeat match goal with
  | |- context [match ?x with _ => _ end] =>
      match x with
      | context [match _ with _ => _ end] => fail 1
      | _ => destruct x eqn:?; simpl
      end
  end.

Lemma sampleBearer_closed :
  heap_closed (graph sampleBearer) /\
  value_closed (graph sampleBearer) (root sampleBearer).
Proof.
  split; [| simpl; eexists; vm_compute; reflexivity].
  intros l o Hl. unfold sampleBearer, graph in Hl.
  repeat (apply lookup_insert_Some in Hl as [[<- <-] | [_ Hl]];
          [repeat constructor; simpl; eexists; vm_compute; reflexivity |]).
  apply lookup_singleton_Some in Hl as [<- <-]. repeat constructor.
Qed.

Lemma happyWorld_bearers_closed : bearers_closed happyWorld.
Proof. intros request d [= <-]. exact sampleBearer_closed. Qed.


Lemma initialize_resumed_never_rejects (w : World) (st : state) :
  bearers_closed w ->
  (initialize_resumed w st).2 = Some (Return tt).
Proof.
  intros Hclosed.
  unfold initialize_resumed, try_catch, bind, lift,
    getItem, setItem,
    console_log, console_error, emit, ret. simpl.
  destruct (registration w) as [[[] | e] |]; simpl;
    (destruct (Web5_connect w (Some connectOptions)) as [did | e1]; simpl;
       [| reflexivity]);
    (destruct (protocols_configure w _) as [configured | e2]; simpl;
       [| reflexivity]);
    (destruct (get_prop configured "protocol") as [protocol | e3]; simpl;
       [| reflexivity]);
    (destruct (method_call protocol "send" _) as [sent | e4]; simpl;
       [| reflexivity]);
    (destruct (identity_get w _) as [[d |] | e5] eqn:Hid; simpl;
       [| reflexivity | reflexivity]);
    destruct (Hclosed _ _ Hid) as [Hh Hv];
    match goal with
    | |- context [stringify_bearer d ?s] =>
        destruct (stringify_bearer_returns d s Hh Hv) as (text & ->)
    end; reflexivity.
Qed.

Lemma initialize_never_rejects_aux (w : World) (st : state) :
  bearers_closed w ->
  (initialize w st).2 = Some (Return tt).
Proof.
  intros Hclosed. unfold initialize, invoke, bind, emit. cbn beta iota.
  by apply initialize_resumed_never_rejects.
Qed.

(** X8.  [initialize] never rejects: whatever the SDK throws, and at
    whatever step, the [catch] logs it and the routine returns. *)
Theorem initialize_never_rejects (w : World) (st : state) :
  bearers_closed w ->
  (initialize w st).2 = Some (Return tt).
Proof. exact (initialize_never_rejects_aux w st). Qed.

Lemma initialize_never_rejects_witness :
  (initialize happyWorld first_start).2 = Some (Return tt).
Proof.
  apply (initialize_never_rejects happyWorld first_start).
  exact happyWorld_bearers_closed.
Defined.

Lemma stringify_bearer_run (d : BearerDid) (s : state) :
  stringify_bearer d s =
  (s, match JSON_stringify (graph d) removeCircularReferences (root d) with
      | Some (Return text) => Some (Return (default "undefined" text))
      | Some (Throw e) => Some (Throw e)
      | None => None
      end).
Proof.
  unfold stringify_bearer, bind, lift_partial, ret.
  by destruct (JSON_stringify _ _ _) as [[text | e] |].
Qed.

Lemma initialize_resumed_registered (w : World) (st : state) :
  store (initialize_resumed w st).1 !! "registered" =
  match registration w with
  | Some (Return _) => Some "true"
  | _ => store st !! "registered"
  end.
Proof.
  unfold initialize_resumed, try_catch, bind, lift,
    getItem, setItem,
    console_log, console_error, emit, ret.
  simpl.
  destruct (registration w) as [[[] | e] |]; simpl;
    repeat first
      [ rewrite stringify_bearer_run
      | match goal with
        | |- context [match ?x with _ => _ end] =>
            match x with
            | context [match _ with _ => _ end] => fail 1
            | _ => destruct x eqn:?; simpl
            end
        end ];
    by simplify_map_eq.
Qed.

Lemma initialize_registered_aux (w : World) (st : state) :
  store (initialize w st).1 !! "registered" =
  match registration w with
  | Some (Return _) => Some "true"
  | _ => store st !! "registered"
  end.
Proof.
  unfold initialize, invoke, bind, emit. cbn beta iota.
  by rewrite initialize_resumed_registered.
Qed.


(** X9.  [initialize] sets [registered] to ["true"] exactly when the
    SDK calls [onSuccess], whatever happens to the rest of the
    routine: the key can end up set although nothing else was stored,
    and stays as it was when the callback is not called. *)
Theorem initialize_registered (w : World) (st : state) :
  store (initialize w st).1 !! "registered" =
  match registration w with
  | Some (Return _) => Some "true"
  | _ => store st !! "registered"
  end.
Proof. exact (initialize_registered_aux w st). Qed.

(** X10.  When [Web5.connect], the configuration of the protocol or
    [protocol.send] fails, [initialize] has written none of the
    identity keys: apart from [registered], the store is as before. *)
Theorem initialize_failure_keeps_store (w : World) (st : state) (k : string) :
  (exists e, Web5_connect w (Some connectOptions) = Throw e) \/
  (exists e, protocols_configure w
     (JObj [("message", JObj [("definition", protocolDefinition)])]) = Throw e) \/
  (forall protocol did, exists e, protocol_send w protocol did = Throw e) ->
  k <> "registered" ->
  store (initialize w st).1 !! k = store st !! k.
Proof.
  intros Hfail Hk.
  unfold initialize, initialize_resumed, invoke, try_catch, bind, lift,
    getItem, setItem,
    console_log, console_error, emit, ret. simpl.
  destruct (registration w) as [[[] | e] |]; simpl;
    (destruct (Web5_connect w (Some connectOptions)) as [did | e1] eqn:Hc;
       simpl; [| by simplify_map_eq]);
    (destruct (protocols_configure w _) as [configured | e2] eqn:Hp; simpl;
       [| by simplify_map_eq]);
    (destruct (get_prop configured "protocol") as [protocol | e3] eqn:Hg;
       simpl; [| by simplify_map_eq]);
    (destruct (method_call protocol "send" _) as [sent | e4] eqn:Hs; simpl;
       [| by simplify_map_eq]);
    exfalso;
    (destruct Hfail as [[e' He] | [[e' He] | Hsend]];
       [congruence | congruence |
        destruct (Hsend protocol did) as [e' He]; rewrite He in Hs;
        by destruct protocol]).
Qed.

Lemma initialize_failure_keeps_store_witness :
  store (initialize halfRegisteredWorld first_start).1 !! "didURI" =
  store first_start !! "didURI".
Proof.
  apply (initialize_failure_keeps_store halfRegisteredWorld first_start "didURI").
  - right. left. eexists. reflexivity.
  - discriminate.
Defined.

(** X11.  When the DID is created and the protocol is published,
    [initialize] stores the DID under [didURI] and the authorization
    URL made of the fixed prefix and that DID under [authURL]; the
    bearer identity is then asked for under the DID just stored,
    whatever [didURI] held before, and when the SDK returns one its
    serialization (cycles and repeated objects dropped) is stored
    under [dwnBearerDid.json]. *)
Theorem initialize_success_store
    (w : World) (st : state) (did : string) (configured protocol sent : jsval)
    (d : BearerDid) :
  Web5_connect w (Some connectOptions) = Return did ->
  protocols_configure w
    (JObj [("message", JObj [("definition", protocolDefinition)])]) =
    Return configured ->
  get_prop configured "protocol" = Return protocol ->
  is_nullish protocol = false ->
  protocol_send w protocol did = Return sent ->
  identity_get w (JObj [("didUri", JStr did)]) = Return (Some d) ->
  heap_closed (graph d) -> value_closed (graph d) (root d) ->
  store (initialize w st).1 !! "didURI" = Some did /\
  store (initialize w st).1 !! "authURL" = Some (authorizeUrl +:+ did) /\
  exists o,
    stringify_tree (graph d) removeCircularReferences (root d) =
      Some (Return o) /\
    store (initialize w st).1 !! "dwnBearerDid.json" =
      Some (default "undefined" (render <$> o)).
Proof.
  intros Hc Hp Hg Hn Hs Hid Hh Hv.
  assert (Hcall : method_call protocol "send" (protocol_send w protocol did) =
                  Return sent) by (destruct protocol; done).
  destruct (stringify_tree_walk (graph d) (root d) Hh Hv)
    as (seen' & o & E & _).
  assert (Erun : forall s, stringify_bearer d s =
                   (s, Some (Return (default "undefined" (render <$> o))))).
  { intros s. unfold stringify_bearer, bind, lift_partial, JSON_stringify.
    by rewrite E. }
  unfold initialize, initialize_resumed, invoke, try_catch, bind, lift,
    getItem, setItem,
    console_log, console_error, emit, ret. simpl.
  destruct (registration w) as [[[] | e] |]; simpl;
    rewrite Hc; simpl; rewrite Hp; simpl; rewrite Hg; simpl;
    rewrite Hcall; simpl; rewrite lookup_insert_ne by done;
    rewrite lookup_insert_eq; simpl; rewrite Hid; simpl;
    rewrite Erun; simpl;
    (split; [by simplify_map_eq |]); (split; [by simplify_map_eq |]);
    exists o; (split; [done | by simplify_map_eq]).
Qed.

Lemma initialize_success_store_witness :
  store (initialize happyWorld restart).1 !! "didURI" = Some "did:dht:issuer" /\
  store (initialize happyWorld restart).1 !! "authURL" =
    Some (authorizeUrl +:+ "did:dht:issuer") /\
  exists o,
    stringify_tree (graph sampleBearer) removeCircularReferences
      (root sampleBearer) = Some (Return o) /\
    store (initialize happyWorld restart).1 !! "dwnBearerDid.json" =
      Some (default "undefined" (render <$> o)).
Proof.
  apply (initialize_success_store happyWorld restart "did:dht:issuer"
           (JObj [("protocol", JHandle 1)]) (JHandle 1)
           (JObj [("status", JNum 202)]) sampleBearer);
    try reflexivity.
  - apply sampleBearer_closed.
  - apply sampleBearer_closed.
Defined.

End BootstrapFacts.

(** ** Routines and routes, continued *)

Section RouteFacts.

Import JsonStringify Service.
Local Open Scope js_scope.

Lemma responses_app evs1 evs2 :
  responses (evs1 ++ evs2) = (responses evs1 + responses evs2)%nat.
Proof.
  induction evs1 as [| ev evs1 IH]; [done |].
  destruct ev; simpl; lia.
Qed.

Lemma responses_none (P : event -> Prop) evs :
  (forall ev, P ev ->
     match ev with ResSend _ _ | ResJson _ _ => False | _ => True end) ->
  Forall P evs -> responses evs = 0%nat.
Proof.
  intros HP. induction 1 as [| ev evs Hev _ IH]; [done |].
  apply HP in Hev. destruct ev; simpl; done.
Qed.

Lemma response_app_none evs1 evs2 :
  response evs1 = None -> response (evs1 ++ evs2) = response evs2.
Proof.
  induction evs1 as [| ev evs1 IH]; [done |].
  destruct ev; simpl; auto; discriminate.
Qed.

Lemma of_routine_no_response fn ev :
  of_routine fn ev ->
  match ev with ResSend _ _ | ResJson _ _ => False | _ => True end.
Proof. intros [-> | Hev]; [done | by destruct ev]. Qed.

Lemma console_only_no_response ev :
  console_only ev ->
  match ev with ResSend _ _ | ResJson _ _ => False | _ => True end.
Proof. by destruct ev. Qed.

(** A run of [issueAndSignCredential]. *)
Lemma issueAndSignCredential_run (w : World) (custDid : jsval) (st : state) :
  exists v evs,
    issueAndSignCredential w custDid st =
      ({| store := store st; trace := (trace st ++ evs)%list |},
       Some (Return v)) /\
    Forall (of_routine "issueAndSignCredential") evs /\
    ((v = JUndefined /\
      exists e, last evs =
        Some (ConsoleError [JStr "Issue and sign credential failed:"; e])) \/
     issued v).
Proof.
  unfold issueAndSignCredential, issueAndSignCredential_try, invoke,
    try_catch, bind, lift, getItem, console_log, console_error, emit, ret.
  simpl.
  repeat match goal with
  | |- context [match ?x with _ => _ end] =>
      match x with
      | context [match _ with _ => _ end] => fail 1
      | _ => destruct x; simpl
      end
  end;
    eexists _, _; rewrite <- ?app_assoc; simpl;
    (split; [reflexivity |]);
    (split; [repeat constructor; (by left) || (by right) |]);
    first [ left; split; [reflexivity | eexists; reflexivity]
          | right; eexists _, _, _, _; reflexivity ].
Qed.

(** X12.  [issueAndSignCredential] never rejects and never writes the
    store.  It resolves to undefined, having logged the error as its
    last act, or to an object with exactly the keys [status],
    [record], [id] and [KCC]; it sends no response itself. *)
Theorem issueAndSignCredential_resolves
    (w : World) (custDid : jsval) (st : state) :
  exists v,
    (issueAndSignCredential w custDid st).2 = Some (Return v) /\
    store (issueAndSignCredential w custDid st).1 = store st /\
    responses (new_events st (issueAndSignCredential w custDid st).1) = 0%nat /\
    ((v = JUndefined /\
      exists e,
        last (new_events st (issueAndSignCredential w custDid st).1) =
        Some (ConsoleError [JStr "Issue and sign credential failed:"; e])) \/
     issued v).
Proof.
  destruct (issueAndSignCredential_run w custDid st) as (v & evs & E & F & Hv).
  exists v. rewrite E. simpl.
  rewrite (new_events_app st {| store := store st;
                                trace := (trace st ++ evs)%list |} evs eq_refl).
  repeat split; try done.
  eapply responses_none; [| exact F]. apply of_routine_no_response.
Qed.

(** X13.  [getPermission] never rejects and never writes the store.  It
    asks the gateway under the fixed URL followed by the stored
    [didURI] (by the text [null] when there is none) and resolves to
    the JSON of the answer, or to undefined when the request or the
    decoding of the answer fails. *)
Theorem getPermission_resolves (w : World) (st : state) :
  (getPermission w st).2 =
    Some (Return
      match fetch w (authorizeUrl +:+ default "null" (store st !! "didURI")) with
      | Return response =>
          match method_call response "json" (response_json w response) with
          | Return data => data
          | Throw _ => JUndefined
          end
      | Throw _ => JUndefined
      end) /\
  store (getPermission w st).1 = store st /\
  responses (new_events st (getPermission w st).1) = 0%nat.
Proof.
  destruct (getPermission_run w st) as (evs & data & E & F).
  split; [| rewrite E; simpl; split; [done |]].
  - clear E. unfold getPermission, invoke, try_catch, bind, emit, getItem,
      lift, console_log, console_error, emit, ret, item_text. simpl.
    destruct (fetch w _) as [response | e]; simpl; [| done].
    by destruct (method_call response "json" _) as [d | e].
  - erewrite new_events_app; [| simpl; reflexivity]. simpl.
    eapply responses_none; [| exact F]. apply console_only_no_response.
Qed.

(** The answer of [/get-credential] to an object. *)
Lemma respond_credential_issued (v : jsval) (st : state) :
  issued v ->
  exists status record id KCC,
    respond_credential v st =
      ({| store := store st;
          trace := (trace st ++
            [ResJson 200 (JObj [("status", status); ("record", record);
                                ("id", id); ("KCC", KCC)])])%list |},
       Some (Return tt)) /\
    is_nullish status = false /\ is_nullish record = false /\
    is_nullish id = false /\ is_nullish KCC = false.
Proof.
  intros (status & record & id & KCC & ->).
  exists (nullish status (JStr "")), (nullish record (JStr "")),
    (nullish id (JStr "")), (nullish KCC (JStr "")).
  split; [reflexivity |].
  repeat split; unfold nullish;
    match goal with |- context [is_nullish ?x] => by destruct x end.
Qed.

(** X14.  The answer of [POST /get-credential].  When the issuance
    resolves to its object, the handler answers once, with the status
    code 200 and an object of the four keys in which no value is
    undefined or null (a missing one is the empty string), and
    completes; when it resolves to undefined the handler sends
    nothing. *)
Theorem post_get_credential_answer (w : World) (req : Request) (st : state) :
  exists data,
    (issueAndSignCredential w (body_custDid req)
       (ensure_permission w st).1).2 = Some (Return data) /\
    (data = JUndefined ->
     responses (new_events st (post_get_credential w req st).1) = 0%nat) /\
    (data <> JUndefined ->
     (post_get_credential w req st).2 = Some (Return tt) /\
     responses (new_events st (post_get_credential w req st).1) = 1%nat /\
     exists status record id KCC,
       response (new_events st (post_get_credential w req st).1) =
         Some (200, JObj [("status", status); ("record", record);
                          ("id", id); ("KCC", KCC)]) /\
       is_nullish status = false /\ is_nullish record = false /\
       is_nullish id = false /\ is_nullish KCC = false).
Proof.
  destruct (ensure_permission_completes w st) as (Hp & evs0 & E0 & F0).
  destruct (ensure_permission w st) as [st1 r] eqn:Eperm. simpl in *. subst r.
  destruct (issueAndSignCredential_run w (body_custDid req) st1)
    as (data & evs1 & E1 & F1 & Hdata).
  exists data. rewrite E1. simpl. split; [done |].
  assert (Hquiet : responses (evs0 ++ evs1) = 0%nat).
  { rewrite responses_app.
    rewrite (responses_none _ evs0 (of_routine_no_response _) F0).
    by rewrite (responses_none _ evs1 (of_routine_no_response _) F1). }
  assert (Hsilent : response (evs0 ++ evs1) = None).
  { eapply (response_none (fun ev => of_routine "getPermission" ev \/
                             of_routine "issueAndSignCredential" ev)).
    - intros ev [H | H]; eapply of_routine_no_response; eauto.
    - apply Forall_app. split; eapply Forall_impl; eauto; simpl; auto. }
  assert (Epost : post_get_credential w req st =
            respond_credential data
              {| store := store st1; trace := (trace st1 ++ evs1)%list |}).
  { unfold post_get_credential, bind at 1. rewrite Eperm.
    unfold bind. by rewrite E1. }
  rewrite Epost. split.
  - intros ->. unfold respond_credential, bind, lift. simpl.
    erewrite new_events_app; [| rewrite E0, <- app_assoc; reflexivity].
    exact Hquiet.
  - intros Hdef. destruct Hdata as [[-> _] | Hissued]; [done |].
    destruct (respond_credential_issued data
                {| store := store st1; trace := (trace st1 ++ evs1)%list |}
                Hissued)
      as (status & record & id & KCC & -> & Hn).
    simpl. split; [done |].
    erewrite new_events_app;
      [| rewrite E0, <- !app_assoc; reflexivity].
    split.
    + rewrite app_assoc, responses_app, Hquiet. reflexivity.
    + exists status, record, id, KCC. split; [| exact Hn].
      by rewrite app_assoc, (response_app_none _ _ Hsilent).
Qed.

Lemma post_get_credential_answer_witness :
  (post_get_credential happyWorld sampleRequest first_start).2 =
    Some (Return tt) /\
  responses
    (new_events first_start
       (post_get_credential happyWorld sampleRequest first_start).1) = 1%nat /\
  exists status record id KCC,
    response
      (new_events first_start
         (post_get_credential happyWorld sampleRequest first_start).1) =
      Some (200, JObj [("status", status); ("record", record);
                       ("id", id); ("KCC", KCC)]) /\
    is_nullish status = false /\ is_nullish record = false /\
    is_nullish id = false /\ is_nullish KCC = false.
Proof.
  destruct (post_get_credential_answer happyWorld sampleRequest first_start)
    as (data & Hdata & _ & Hanswer).
  apply Hanswer. intros ->. revert Hdata. vm_compute. discriminate.
Defined.

(** The store after the permission step of [/get-credential]. *)
Lemma ensure_permission_store (w : World) (st : state) :
  store (ensure_permission w st).1 = <["permission" := "true"]> (store st).
Proof.
  destruct (decide (store st !! "permission" = Some "true")) as [Hp | Hp].
  - rewrite (ensure_permission_flagged w st Hp). by rewrite insert_id.
  - by destruct (ensure_permission_unflagged w st Hp) as (evs & -> & _).
Qed.

Lemma post_get_credential_split (w : World) (req : Request) (st : state) :
  post_get_credential w req st =
  (data <- issueAndSignCredential w (body_custDid req) ;;
   respond_credential data) (ensure_permission w st).1.
Proof.
  destruct (ensure_permission_completes w st) as (Hp & _).
  unfold post_get_credential, bind at 1.
  destruct (ensure_permission w st) as [st1 r]. simpl in *. by subst r.
Qed.

Lemma routes_store_effect_aux (w : World) (req : Request) (st : state) :
  store (post_root w req st).1 = store st /\
  store (post_get_permission w req st).1 =
    <["permission" := "true"]> (store st) /\
  store (post_get_credential w req st).1 =
    <["permission" := "true"]> (store st).
Proof.
  split; [| split].
  - destruct (getRecord_run w (body_custDid req) st) as (e & _ & E).
    unfold post_root, bind. by rewrite E.
  - unfold post_get_permission, bind.
    by destruct (getPermission_run w st) as (evs & data & -> & _).
  - rewrite post_get_credential_split, issue_and_respond_keeps.
    apply ensure_permission_store.
Qed.

(** X15.  What the routes do to the store: [POST /] leaves it as it is,
    [POST /get-permission] and [POST /get-credential] set the key
    [permission] to ["true"] and nothing else.  No request changes
    [didURI], [registered], [authURL] or the stored identity, and no
    request clears the permission flag. *)
Theorem routes_store_effect (w : World) (req : Request) (st : state) :
  store (post_root w req st).1 = store st /\
  store (post_get_permission w req st).1 =
    <["permission" := "true"]> (store st) /\
  store (post_get_credential w req st).1 =
    <["permission" := "true"]> (store st).
Proof. exact (routes_store_effect_aux w req st). Qed.

Lemma respond_credential_events (data : jsval) (st : state) :
  exists evs,
    trace (respond_credential data st).1 = (trace st ++ evs)%list /\
    (responses evs <= 1)%nat.
Proof.
  destruct data;
    try (exists []; split; [by rewrite app_nil_r | simpl; lia]);
    (eexists; split; [reflexivity | simpl; lia]).
Qed.

(** X16.  No handler answers twice: [POST /] and [POST /get-permission]
    send exactly one response in every run, [POST /get-credential] at
    most one. *)
Theorem routes_respond_once (w : World) (req : Request) (st : state) :
  responses (new_events st (post_root w req st).1) = 1%nat /\
  responses (new_events st (post_get_permission w req st).1) = 1%nat /\
  (responses (new_events st (post_get_credential w req st).1) <= 1)%nat.
Proof.
  split; [| split].
  - destruct (getRecord_run w (body_custDid req) st) as (e & _ & E).
    unfold post_root, bind. rewrite E. simpl.
    erewrite new_events_app; [| rewrite <- app_assoc; reflexivity].
    reflexivity.
  - unfold post_get_permission, bind.
    destruct (getPermission_run w st) as (evs & data & -> & F). simpl.
    erewrite new_events_app; [| rewrite <- app_assoc; reflexivity].
    simpl. rewrite responses_app.
    rewrite (responses_none _ evs console_only_no_response F). reflexivity.
  - rewrite post_get_credential_split.
    destruct (ensure_permission_completes w st) as (_ & evs0 & E0 & F0).
    destruct (issueAndSignCredential_run w (body_custDid req)
                (ensure_permission w st).1)
      as (data & evs1 & E1 & F1 & Hdata).
    unfold bind at 1. rewrite E1.
    set (st2 := {| store := _; trace := _ |}).
    pose proof (respond_credential_events data st2) as Hresp.
    destruct Hresp as (evs2 & E2 & Hle).
    erewrite new_events_app;
      [| rewrite E2; unfold st2; simpl; rewrite E0, <- !app_assoc; reflexivity].
    rewrite !responses_app.
    rewrite (responses_none _ evs0 (of_routine_no_response _) F0).
    rewrite (responses_none _ evs1 (of_routine_no_response _) F1). lia.
Qed.

(** In a run of [/get-credential] that finds the flag set,
    [getPermission] is not entered. *)
Lemma post_get_credential_flagged_quiet (w : World) (req : Request) (st : state) :
  store st !! "permission" = Some "true" ->
  invocations "getPermission"
    (new_events st (post_get_credential w req st).1) = 0%nat.
Proof.
  intros Hp. rewrite post_get_credential_split.
  rewrite (ensure_permission_flagged w st Hp). simpl.
  destruct (issue_and_respond_emits w (body_custDid req) st) as (evs & E & F).
  rewrite (new_events_app _ _ _ E).
  by rewrite (invocations_none "getPermission" _ evs (fun ev Hev => Hev)).
Qed.

(** X17.  After one request to [/get-credential] or [/get-permission],
    however it ended (the gateway unreachable or denying, the issuance
    failing, the handler rejecting), no later request to
    [/get-credential] asks the gateway again, whatever the
    collaborators do by then. *)
Theorem gateway_asked_once
    (w1 w2 : World) (req1 req2 : Request) (st : state) :
  invocations "getPermission"
    (new_events (post_get_credential w1 req1 st).1
       (post_get_credential w2 req2 (post_get_credential w1 req1 st).1).1) =
    0%nat /\
  invocations "getPermission"
    (new_events (post_get_permission w1 req1 st).1
       (post_get_credential w2 req2 (post_get_permission w1 req1 st).1).1) =
    0%nat.
Proof.
  split; apply post_get_credential_flagged_quiet.
  - destruct (routes_store_effect_aux w1 req1 st) as (_ & _ & ->).
    apply lookup_insert_eq.
  - destruct (routes_store_effect_aux w1 req1 st) as (_ & -> & _).
    apply lookup_insert_eq.
Qed.

(** The run of [issueAndSignCredential] when every call succeeds. *)
Lemma issueAndSignCredential_run_success
    (w : World) (custDid : jsval) (st : state)
    (expirationDate did : string)
    (vc signed_vc created record sent status : jsval)
    (bearer : BearerDid) (records : list jsval) :
  import_credentials w = Return tt ->
  getExpirationDate w (Some 365) = Return expirationDate ->
  VerifiableCredential_create w
    (credentialOptions (store st !! "didURI") custDid expirationDate) =
    Return vc ->
  Web5_connect w None = Return did ->
  identity_get w (JObj [("didUri", item (store st !! "didURI"))]) =
    Return (Some bearer) ->
  is_nullish vc = false ->
  vc_sign w vc bearer = Return signed_vc ->
  records_create w (createRequest signed_vc custDid) = Return created ->
  get_prop created "record" = Return record ->
  is_nullish record = false ->
  record_send w record custDid = Return sent ->
  get_prop sent "status" = Return status ->
  records_query w (queryRequest custDid (store st !! "didURI")) =
    Return records ->
  issueAndSignCredential w custDid st =
    ({| store := store st;
        trace := (trace st ++
          [Invoke "issueAndSignCredential";
           ConsoleLog [JStr "IssueAndSignCredential"];
           ConsoleLog [JStr "Record"; record];
           ConsoleLog [JStr "Status"; status]])%list |},
     Some (Return (JObj [ ("status", status); ("record", record);
                          ("id", last_record records);
                          ("KCC", signed_vc) ]))).
Proof.
  intros Himport Hexp Hvc Hconnect Hid Hobj Hsign Hcreate Hrecord Hhandle
    Hsend Hstatus Hquery.
  assert (Hcall : method_call record "send" (record_send w record custDid) =
                  Return sent) by (destruct record; done).
  assert (Hcall' : method_call vc "sign" (vc_sign w vc bearer) =
                   Return signed_vc) by (destruct vc; done).
  unfold issueAndSignCredential, issueAndSignCredential_try, invoke,
    try_catch, bind, lift, getItem, console_log, emit, ret. simpl.
  rewrite Himport. simpl. rewrite Hexp. simpl. rewrite Hvc. simpl.
  rewrite Hconnect. simpl. rewrite Hid. simpl. rewrite Hcall'. simpl.
  rewrite Hcreate. simpl. rewrite Hrecord. simpl. rewrite Hcall. simpl.
  rewrite Hstatus. simpl. rewrite Hquery. simpl.
  by rewrite <- !app_assoc.
Qed.

(** X18.  [POST /get-credential] when every downstream call succeeds:
    the handler answers with the status code 200 and the status of the
    send, the record handle, the signed credential and, under [id],
    the last record of the query; when the query finds no record at
    all, [id] is the empty string.  The permission step before the
    issuance does not change the issuer DID that the issuance reads. *)
Theorem post_get_credential_success
    (w : World) (req : Request) (st : state)
    (expirationDate did : string)
    (vc signed_vc created record sent status : jsval)
    (bearer : BearerDid) (records : list jsval) :
  import_credentials w = Return tt ->
  getExpirationDate w (Some 365) = Return expirationDate ->
  VerifiableCredential_create w
    (credentialOptions (store st !! "didURI") (body_custDid req)
       expirationDate) = Return vc ->
  Web5_connect w None = Return did ->
  identity_get w (JObj [("didUri", item (store st !! "didURI"))]) =
    Return (Some bearer) ->
  is_nullish vc = false ->
  vc_sign w vc bearer = Return signed_vc ->
  records_create w (createRequest signed_vc (body_custDid req)) =
    Return created ->
  get_prop created "record" = Return record ->
  is_nullish record = false ->
  record_send w record (body_custDid req) = Return sent ->
  get_prop sent "status" = Return status ->
  records_query w (queryRequest (body_custDid req) (store st !! "didURI")) =
    Return records ->
  response (new_events st (post_get_credential w req st).1) =
    Some (200,
          JObj [ ("status", nullish status (JStr ""));
                 ("record", record);
                 ("id", match last records with
                        | Some r => nullish r (JStr "")
                        | None => JStr ""
                        end);
                 ("KCC", nullish signed_vc (JStr "")) ]).
Proof.
  intros Himport Hexp Hvc Hconnect Hid Hobj Hsign Hcreate Hrecord Hhandle
    Hsend Hstatus Hquery.
  destruct (ensure_permission_completes w st) as (_ & evs0 & E0 & F0).
  assert (Hdid : store (ensure_permission w st).1 !! "didURI" =
                 store st !! "didURI").
  { rewrite ensure_permission_store. by rewrite lookup_insert_ne. }
  rewrite post_get_credential_split. unfold bind at 1.
  rewrite (issueAndSignCredential_run_success w (body_custDid req)
             (ensure_permission w st).1 expirationDate did vc signed_vc
             created record sent status bearer records);
    try rewrite Hdid; try done.
  unfold respond_credential, bind, lift, res_json, emit. simpl.
  erewrite new_events_app; [| rewrite E0, <- !app_assoc; reflexivity].
  rewrite (response_app_none evs0).
  - assert (Erecord : nullish record (JStr "") = record)
      by (unfold nullish; by rewrite Hhandle).
    assert (Eid : nullish (last_record records) (JStr "") =
                  match last records with
                  | Some r => nullish r (JStr "")
                  | None => JStr ""
                  end)
      by (unfold last_record; by destruct (last records)).
    simpl. by rewrite Erecord, Eid.
  - eapply response_none; [| exact F0]. apply of_routine_no_response.
Qed.

Lemma post_get_credential_success_witness :
  response (new_events first_start
              (post_get_credential emptyQueryWorld sampleRequest first_start).1) =
    Some (200,
          JObj [ ("status",
                  nullish (JObj [("code", JNum 202); ("detail", JStr "Accepted")])
                    (JStr ""));
                 ("record", JHandle 7);
                 ("id", match last [] with
                        | Some r => nullish r (JStr "")
                        | None => JStr ""
                        end);
                 ("KCC",
                  nullish (JStr "eyJhbGciOiJFZERTQSJ9.e30.c2ln") (JStr "")) ]).
Proof.
  apply (post_get_credential_success emptyQueryWorld sampleRequest first_start
           "2025-02-28T12:00:00.000Z" "did:dht:issuer"
           (JObj [("vcDataModel",
                   credentialOptions None (JStr "did:dht:customer")
                     "2025-02-28T12:00:00.000Z")])
           (JStr "eyJhbGciOiJFZERTQSJ9.e30.c2ln")
           (JObj [("record", JHandle 7); ("status", JNum 202)])
           (JHandle 7)
           (JObj [("status", JObj [("code", JNum 202);
                                   ("detail", JStr "Accepted")])])
           (JObj [("code", JNum 202); ("detail", JStr "Accepted")])
           sampleBearer []);
    reflexivity.
Defined.

(** X19.  A clock so late that the expiration leaves the range of time
    values makes every issuance fail: the RangeError of
    [getExpirationDate] is caught like an error of the SDK, the
    routine resolves to undefined, and no credential is created. *)
Theorem issueAndSignCredential_late_clock
    (w : World) (custDid : jsval) (st : state) :
  JsDate.maxTime <
    Z.abs (JsDate.UTC (zone w)
             (JsDate.LocalTime (zone w) (clock w) + 365 * JsDate.msPerDay)) ->
  (issueAndSignCredential w custDid st).2 = Some (Return JUndefined).
Proof.
  intros Hlate.
  assert (Hexp : getExpirationDate w (Some 365) =
                 Throw (RangeError "Invalid time value")).
  { unfold getExpirationDate.
    rewrite getExpirationDate_unfold. unfold JsDate.TimeClip, JsDate.toISOString.
    destruct (Z.ltb_spec JsDate.maxTime
                (Z.abs (JsDate.UTC (zone w)
                   (JsDate.LocalTime (zone w) (clock w) + 365 * JsDate.msPerDay))));
      [reflexivity | lia]. }
  unfold issueAndSignCredential, issueAndSignCredential_try, invoke,
    try_catch, bind, lift, getItem, console_log, console_error, emit, ret.
  simpl. destruct (import_credentials w) as [[] | e]; simpl; [| reflexivity].
  rewrite Hexp. reflexivity.
Qed.

Lemma issueAndSignCredential_late_clock_witness :
  (issueAndSignCredential lateClockWorld (JStr "did:dht:customer")
     first_start).2 = Some (Return JUndefined).
Proof.
  apply (issueAndSignCredential_late_clock lateClockWorld
           (JStr "did:dht:customer") first_start).
  vm_compute. reflexivity.
Defined.

(** The callback of [app.listen] on an unregistered service: it enters
    [initialize], logs the port, and only then is [initialize]
    resumed. *)
Lemma on_listen_unregistered (w : World) (st : state) :
  store st !! "registered" <> Some "true" ->
  on_listen w st =
  initialize_resumed w
    {| store := store st;
       trace := ((trace st ++ [Invoke "initialize"]) ++
                 [ConsoleLog [JStr ("Server is running on port " +:+ PORT w)]])%list |}.
Proof.
  intros Hreg. unfold on_listen, bind at 1. unfold getItem at 1.
  cbn beta iota. unfold is_not_true.
  rewrite bool_decide_eq_false_2 by done. reflexivity.
Qed.




(** X21.  [POST /get-permission] answers with the status code 200 and
    the JSON of the gateway's answer as it is, a denial included; when
    the gateway cannot be reached or its answer cannot be decoded, the
    body is undefined.  The handler completes in both cases. *)
Theorem post_get_permission_answer (w : World) (req : Request) (st : state) :
  (post_get_permission w req st).2 = Some (Return tt) /\
  response (new_events st (post_get_permission w req st).1) =
    Some (200,
      match fetch w (authorizeUrl +:+ default "null" (store st !! "didURI")) with
      | Return r =>
          match method_call r "json" (response_json w r) with
          | Return data => data
          | Throw _ => JUndefined
          end
      | Throw _ => JUndefined
      end).
Proof.
  unfold post_get_permission, bind at 1.
  unfold getPermission, invoke, try_catch, bind, emit, getItem, lift,
    console_log, console_error, res_json, setItem, emit, ret, item_text.
  simpl.
  destruct (fetch w _) as [r | e]; simpl.
  - destruct (method_call r "json" _) as [data | e]; simpl;
      (split; [reflexivity |]);
      (erewrite new_events_app; [| simpl; rewrite <- !app_assoc; reflexivity]);
      reflexivity.
  - split; [reflexivity |].
    erewrite new_events_app; [| simpl; rewrite <- !app_assoc; reflexivity].
    reflexivity.
Qed.

(** X22.  Bootstrap across restarts.  After a start that found the
    service unregistered, the next start enters [initialize] again
    unless the SDK called [onSuccess] during the first one: a
    registration that failed is retried at every start, and one that
    succeeded is never repeated, even if the rest of [initialize]
    failed. *)
Theorem bootstrap_until_registered (w1 w2 : World) (st : state) :
  store st !! "registered" <> Some "true" ->
  invocations "initialize"
    (new_events (on_listen w1 st).1 (on_listen w2 (on_listen w1 st).1).1) =
  match registration w1 with
  | Some (Return _) => 0%nat
  | _ => 1%nat
  end.
Proof.
  intros Hreg. rewrite on_listen_invocations.
  rewrite (on_listen_unregistered w1 st Hreg).
  rewrite initialize_resumed_registered. simpl.
  destruct (registration w1) as [[[] | e] |];
    case_bool_decide; done.
Qed.

Lemma bootstrap_until_registered_witness :
  invocations "initialize"
    (new_events (on_listen offlineWorld first_start).1
       (on_listen happyWorld (on_listen offlineWorld first_start).1).1) =
  match registration offlineWorld with
  | Some (Return _) => 0%nat
  | _ => 1%nat
  end.
Proof.
  apply (bootstrap_until_registered offlineWorld happyWorld first_start).
  vm_compute. discriminate.
Defined.

End RouteFacts.
